(** * data-workflow-engine: a shallow embedding of the evaluation engine

    The development follows the two source files of the engine:
    the resolver with its path utilities ([resolve], [resolveString],
    [applyRelativeIndexes], [matches], [getDataPathsForRefPath],
    [getRefPathForDataPath]) and the engine proper ([pruneData],
    [preconditionsMet], [evaluateSectionStates], [evaluateEdgeStates], ...).

    JavaScript values are an inductive type of JSON-like trees; objects the
    engine mutates live in an explicit store of cells, so that aliasing
    between the caller's data and the engine's working copy is visible.

    Conventions of the model:
    - strings are sequences of ASCII characters;
    - numbers are integers;
    - the fields of an object are listed in the order [Object.keys]
      enumerates them, each key once;
    - an exception is the absence of a result; [console.warn] appends a
      line to a log;
    - the packages the code calls ([lodash], [traverse]) are modelled by
      what they do on such values; [toposort] and the Config Index are
      parameters. *)

From Stdlib Require Import String Ascii List ZArith Lia Bool DecimalString DecimalNat.
From stdpp Require Import base option list strings.
Import ListNotations.
Set Warnings "-register-all".
Local Open Scope string_scope.
Local Open Scope list_scope.

(* ===================================================================== *)
(** ** JavaScript strings: the [String.prototype] operations the code uses *)
(* ===================================================================== *)

Module JsString.

(** [s.indexOf(pat) === 0] *)
Definition starts_with (pat s : string) : bool := String.prefix pat s.

(** [s.indexOf(c) !== -1] for a one-character needle. *)
Fixpoint contains_char (c : ascii) (s : string) : bool :=
  match s with
  | EmptyString => false
  | String a s' => Ascii.eqb a c || contains_char c s'
  end.

Fixpoint drop_chars (n : nat) (s : string) : string :=
  match n, s with
  | O, _ => s
  | S n', String _ s' => drop_chars n' s'
  | S _, EmptyString => EmptyString
  end.

(** [s.replace(pat, '')] with a string pattern: only the first
    occurrence is removed. *)
Fixpoint remove_first (pat s : string) : string :=
  if String.prefix pat s then drop_chars (String.length pat) s
  else match s with
       | EmptyString => EmptyString
       | String a s' => String a (remove_first pat s')
       end.

(** [s.replace(/\.\*$/, '')] *)
Fixpoint strip_trailing_dot_star (s : string) : string :=
  match s with
  | EmptyString => EmptyString
  | String a s' =>
      if String.eqb s ".*" then EmptyString
      else String a (strip_trailing_dot_star s')
  end.

(** [s.split(c)] for a one-character separator; never empty. *)
Fixpoint split (c : ascii) (s : string) : list string :=
  match s with
  | EmptyString => [EmptyString]
  | String a s' =>
      if Ascii.eqb a c then EmptyString :: split c s'
      else match split c s' with
           | h :: t => String a h :: t
           | [] => [String a EmptyString]
           end
  end.

(** [arr.join(sep)] on an array of strings. *)
Fixpoint join (sep : string) (l : list string) : string :=
  match l with
  | [] => EmptyString
  | [x] => x
  | x :: rest => x +:+ sep +:+ join sep rest
  end.

(** [arr.join(sep)] on an array that may hold [undefined] entries, which
    are printed as the empty string. *)
Definition join_opt (sep : string) (l : list (option string)) : string :=
  join sep (map (fun o => match o with Some s => s | None => EmptyString end) l).

Definition is_digit (a : ascii) : bool :=
  let n := nat_of_ascii a in (48 <=? n)%nat && (n <=? 57)%nat.

(** [s.match(/\d/)] as a truth value: some character is a decimal digit. *)
Fixpoint has_digit (s : string) : bool :=
  match s with
  | EmptyString => false
  | String a s' => is_digit a || has_digit s'
  end.

(** [/^\d+$/]: a non-empty run of decimal digits. *)
Fixpoint all_digits (s : string) : bool :=
  match s with
  | EmptyString => true
  | String a s' => is_digit a && all_digits s'
  end.

Definition is_nonneg_int (s : string) : bool :=
  negb (String.eqb s EmptyString) && all_digits s.

(** Decimal printing of an array index, as in [String(i)]. *)
Definition of_nat (n : nat) : string := NilZero.string_of_uint (Nat.to_uint n).

(** A canonical array index: the decimal string of a natural number,
    without sign or leading zeros. *)
Definition to_index (s : string) : option nat :=
  match NilZero.uint_of_string s with
  | Some u => let n := Nat.of_uint u in
              if String.eqb (of_nat n) s then Some n else None
  | None => None
  end.

(** *** [isNaN] on a string: the StringNumericLiteral grammar *)

Definition is_ws (a : ascii) : bool :=
  let n := nat_of_ascii a in
  (n =? 32)%nat || ((9 <=? n)%nat && (n <=? 13)%nat).

Fixpoint ltrim (s : string) : string :=
  match s with
  | String a s' => if is_ws a then ltrim s' else s
  | EmptyString => EmptyString
  end.

Fixpoint rev_string (acc s : string) : string :=
  match s with
  | EmptyString => acc
  | String a s' => rev_string (String a acc) s'
  end.

Definition trim (s : string) : string :=
  rev_string EmptyString (ltrim (rev_string EmptyString (ltrim s))).

Fixpoint skip_digits (s : string) : string :=
  match s with
  | String a s' => if is_digit a then skip_digits s' else s
  | EmptyString => EmptyString
  end.

Definition starts_digit (s : string) : bool :=
  match s with String a _ => is_digit a | EmptyString => false end.

Definition strip_sign (s : string) : string :=
  match s with
  | String a s' => if Ascii.eqb a "+" || Ascii.eqb a "-" then s' else s
  | EmptyString => EmptyString
  end.

(** An optional ExponentPart, up to the end of the string. *)
Definition exponent_opt (s : string) : bool :=
  match s with
  | EmptyString => true
  | String e r =>
      (Ascii.eqb e "e" || Ascii.eqb e "E")
      && (let r' := strip_sign r in
          starts_digit r' && String.eqb (skip_digits r') EmptyString)
  end.

Definition unsigned_decimal (s : string) : bool :=
  if String.eqb s "Infinity" then true
  else if starts_digit s then
    match skip_digits s with
    | String "."%char r => exponent_opt (skip_digits r)
    | r => exponent_opt r
    end
  else
    match s with
    | String "."%char r => starts_digit r && exponent_opt (skip_digits r)
    | _ => false
    end.

Fixpoint all_in (ok : ascii -> bool) (s : string) : bool :=
  match s with
  | EmptyString => true
  | String a s' => ok a && all_in ok s'
  end.

Definition is_hex (a : ascii) : bool :=
  let n := nat_of_ascii a in
  is_digit a || ((65 <=? n)%nat && (n <=? 70)%nat)
  || ((97 <=? n)%nat && (n <=? 102)%nat).
Definition is_octal (a : ascii) : bool :=
  let n := nat_of_ascii a in (48 <=? n)%nat && (n <=? 55)%nat.
Definition is_binary (a : ascii) : bool :=
  Ascii.eqb a "0" || Ascii.eqb a "1".

Definition non_decimal (s : string) : bool :=
  match s with
  | String "0"%char (String x r) =>
      negb (String.eqb r EmptyString)
      && (if Ascii.eqb x "x" || Ascii.eqb x "X" then all_in is_hex r
          else if Ascii.eqb x "o" || Ascii.eqb x "O" then all_in is_octal r
          else if Ascii.eqb x "b" || Ascii.eqb x "B" then all_in is_binary r
          else false)
  | _ => false
  end.

(** [Number(s)] is a number (not [NaN]).  White space is the ASCII white
    space; the empty and the blank string convert to [0]. *)
Definition is_numeric (s : string) : bool :=
  let t := trim s in
  String.eqb t EmptyString || non_decimal t || unsigned_decimal (strip_sign t).

(** [isNaN(s)] for a string [s]. *)
Definition isNaN (s : string) : bool := negb (is_numeric s).

End JsString.

(* ===================================================================== *)
(** ** Data trees *)
(* ===================================================================== *)

(** A JavaScript value as the engine sees it in data, configuration and
    results.  The fields of an object are listed in [Object.keys] order. *)
Inductive value : Type :=
| VUndef
| VNull
| VBool (b : bool)
| VNum (n : Z)
| VStr (s : string)
| VArr (items : list value)
| VObj (fields : list (string * value)).

(** A concrete path: the tokens of [this.path] in a traversal. *)
Abbreviation path := (list string).

(* ===================================================================== *)
(** ** The [traverse] package: pre-order walk with the accumulated path *)
(* ===================================================================== *)

Module Traverse.

(** What the callback of [traverse(x).forEach] sees at one node. *)
Record visit := Visit { v_path : path; v_node : value; v_isLeaf : bool }.

Definition is_leaf (v : value) : bool :=
  match v with
  | VArr [] | VObj [] => true
  | VArr _ | VObj _ => false
  | _ => true
  end.

(** Every node is visited before its children; children in key order. *)
Fixpoint walk (pre : path) (v : value) : list visit :=
  Visit pre v (is_leaf v) ::
  match v with
  | VArr items =>
      (fix go (i : nat) (l : list value) : list visit :=
         match l with
         | [] => []
         | x :: r => walk (pre ++ [JsString.of_nat i]) x ++ go (S i) r
         end) O items
  | VObj fields =>
      (fix go (l : list (string * value)) : list visit :=
         match l with
         | [] => []
         | (k, x) :: r => walk (pre ++ [k]) x ++ go r
         end) fields
  | _ => []
  end.

Definition forEach (v : value) : list visit := walk [] v.

Definition paths (v : value) : list path := map v_path (forEach v).

End Traverse.

(* ===================================================================== *)
(** ** util/path-utils *)
(* ===================================================================== *)

Module PathUtils.

(** The body of the [reduce] callback of [matches]:
    [dataPathToken === token || (token === '*' && dataPathToken.match(/\d/))]. *)
Definition token_matches (token dataPathToken : string) : bool :=
  String.eqb dataPathToken token
  || (String.eqb token "*" && JsString.has_digit dataPathToken).

(** [refPath.reduce((memo, token, index) => memo && ..., true)] *)
Fixpoint matches_from (index : nat) (refPath : list string) (dataPath : path)
  (memo : bool) : bool :=
  match refPath with
  | [] => memo
  | token :: rest =>
      matches_from (S index) rest dataPath
        (memo && match dataPath !! index with
                 | Some dataPathToken => token_matches token dataPathToken
                 | None => false
                 end)
  end.

Definition matches (refPath : list string) (dataPath : path) : bool :=
  Nat.eqb (length refPath) (length dataPath)
  && matches_from O refPath dataPath true.

Definition refPathArr (p : string) : list string :=
  JsString.split "." (JsString.remove_first "$." p).

Definition getDataPathsForRefPath (p : string) (data : value) : list path :=
  filter (fun dp => matches (refPathArr p) dp = true) (Traverse.paths data).

(** [dataPath.reduce((memo, prop) => `${memo}.${!isNaN(prop) ? '*' : prop}`, '$')
      .replace(/\.\*$/, '')] *)
Definition getRefPathForDataPath (dataPath : path) : string :=
  JsString.strip_trailing_dot_star
    (fold_left
       (fun memo prop =>
          memo +:+ "." +:+ (if negb (JsString.isNaN prop) then "*" else prop))
       dataPath "$").

End PathUtils.

(** The matching rule in the words of the specification: same length and,
    token by token, equal, or a [*] against a non-negative integer index. *)
Module SpecPathMatcher.

Definition spec_token_matches (token dataPathToken : string) : bool :=
  String.eqb dataPathToken token
  || (String.eqb token "*" && JsString.is_nonneg_int dataPathToken).

Fixpoint spec_matches (pattern : list string) (dataPath : path) : bool :=
  match pattern, dataPath with
  | [], [] => true
  | t :: ps, d :: ds => spec_token_matches t d && spec_matches ps ds
  | _, _ => false
  end.

Definition spec_matchPaths (p : string) (tree : value) : list path :=
  filter (fun dp => spec_matches (PathUtils.refPathArr p) dp = true)
    (Traverse.paths tree).

End SpecPathMatcher.

(* ===================================================================== *)
(** ** Language-level operations on values *)
(* ===================================================================== *)

Module Js.

(** Truthiness, as in [if (x)], [!x] and [a && b]. *)
Definition truthy (v : value) : bool :=
  match v with
  | VUndef | VNull => false
  | VBool b => b
  | VNum n => negb (Z.eqb n 0)
  | VStr s => negb (String.eqb s EmptyString)
  | VArr _ | VObj _ => true
  end.

(** [x == null] *)
Definition is_nullish (v : value) : bool :=
  match v with VUndef | VNull => true | _ => false end.

Fixpoint assoc {A : Type} (k : string) (l : list (string * A)) : option A :=
  match l with
  | [] => None
  | (k', x) :: r => if String.eqb k' k then Some x else assoc k r
  end.

(** [obj[k] = x] on the fields of an object: an existing key keeps its
    place, a new key goes last. *)
Fixpoint assign {A : Type} (k : string) (x : A) (l : list (string * A))
  : list (string * A) :=
  match l with
  | [] => [(k, x)]
  | (k', y) :: r =>
      if String.eqb k' k then (k', x) :: r else (k', y) :: assign k x r
  end.

Fixpoint string_get (s : string) (i : nat) : option string :=
  match s, i with
  | EmptyString, _ => None
  | String a _, O => Some (String a EmptyString)
  | String _ s', S i' => string_get s' i'
  end.

(** [v[k]] for a value that is neither [null] nor [undefined]; properties
    found on prototypes other than [length] are not modelled. *)
Definition prop (v : value) (k : string) : value :=
  match v with
  | VObj fields => default VUndef (assoc k fields)
  | VArr items =>
      match JsString.to_index k with
      | Some i => default VUndef (items !! i)
      | None => if String.eqb k "length"
                then VNum (Z.of_nat (length items)) else VUndef
      end
  | VStr s =>
      match JsString.to_index k with
      | Some i => match string_get s i with Some c => VStr c | None => VUndef end
      | None => if String.eqb k "length"
                then VNum (Z.of_nat (String.length s)) else VUndef
      end
  | _ => VUndef
  end.

(** [String(v)], also the conversion of a value to a property key. *)
Fixpoint toString (v : value) : string :=
  match v with
  | VUndef => "undefined"
  | VNull => "null"
  | VBool true => "true"
  | VBool false => "false"
  | VNum n => NilZero.string_of_int (Z.to_int n)
  | VStr s => s
  | VArr items =>
      JsString.join ","
        ((fix go (l : list value) : list string :=
            match l with
            | [] => []
            | x :: r => (if is_nullish x then EmptyString else toString x) :: go r
            end) items)
  | VObj _ => "[object Object]"
  end.

(** The characters of a string, as one-character strings. *)
Fixpoint chars (s : string) : list value :=
  match s with
  | EmptyString => []
  | String a s' => VStr (String a EmptyString) :: chars s'
  end.

(** The own enumerable properties copied by [Object.assign]. *)
Definition own_fields (v : value) : list (string * value) :=
  match v with
  | VObj fields => fields
  | VArr items => imap (fun i x => (JsString.of_nat i, x)) items
  | VStr s => imap (fun i x => (JsString.of_nat i, x)) (chars s)
  | _ => []
  end.

End Js.

(* ===================================================================== *)
(** ** Evaluation effects: warnings written to the console, and exceptions *)
(* ===================================================================== *)

(** A computation yields the lines it logged with [console.warn] and either
    a result or nothing, when a [TypeError] was thrown. *)
Definition W (A : Type) : Type := (list string * option A)%type.

Definition ret {A : Type} (a : A) : W A := ([], Some a).
Definition throw {A : Type} : W A := ([], None).
Definition warn (msg : string) : W unit := ([msg], Some tt).

Definition bind {A B : Type} (m : W A) (k : A -> W B) : W B :=
  match m with
  | (l, None) => (l, None)
  | (l, Some a) => let '(l', r) := k a in (l ++ l', r)
  end.

Notation "'let*' x ':=' m 'in' k" := (bind m (fun x => k))
  (at level 10, x name, m at level 200, k at level 200).
Notation "'run' m 'in' k" := (bind m (fun _ => k))
  (at level 10, m at level 200, k at level 200).

Definition logged {A : Type} (m : W A) : list string := fst m.
Definition result {A : Type} (m : W A) : option A := snd m.

Fixpoint mapW {A B : Type} (f : A -> W B) (l : list A) : W (list B) :=
  match l with
  | [] => ret []
  | x :: r => let* y := f x in let* ys := mapW f r in ret (y :: ys)
  end.

Fixpoint foldW {A S : Type} (f : S -> A -> W S) (l : list A) (s : S) : W S :=
  match l with
  | [] => ret s
  | x :: r => let* s' := f s x in foldW f r s'
  end.

(** [v.k] where [v] may be [null] or [undefined], which throws. *)
Definition get_prop (v : value) (k : string) : W value :=
  if Js.is_nullish v then throw else ret (Js.prop v k).

(* ===================================================================== *)
(** ** The lodash functions the engine calls, on trees *)
(* ===================================================================== *)

Module Lodash.

Definition has_own (object : value) (k : string) : bool :=
  match object with
  | VObj fields => bool_decide (is_Some (Js.assoc k fields))
  | _ => false
  end.

(** [castPath] of a string path.  A string that is itself a key of the
    object is one token; otherwise it is cut at the dots.  The bracket
    syntax of lodash paths does not occur in ref-paths and is not
    modelled. *)
Definition castPath (s : string) (object : value) : path :=
  if has_own object s then [s] else JsString.split "." s.

(** The loop of [baseGet]; [None] when it stopped before the last token. *)
Fixpoint baseGet (object : value) (p : path) : option value :=
  match p with
  | [] => Some object
  | k :: rest =>
      if Js.is_nullish object then None else baseGet (Js.prop object k) rest
  end.

(** [_.get(object, path)] for an array path. *)
Definition get (object : value) (p : path) : value :=
  match p with
  | [] => VUndef
  | _ => default VUndef (baseGet object p)
  end.

(** [_.get(object, path)] for a string path. *)
Definition get_str (object : value) (s : string) : value :=
  get object (castPath s object).

End Lodash.

(** The fourth argument of [resolve]: absent, [null], an array of tokens
    (a traversal path) or a dotted string (the required checks pass one). *)
Inductive target : Type :=
| TUndef
| TNull
| TArr (p : path)
| TStr (s : string).

Definition target_truthy (t : target) : bool :=
  match t with
  | TUndef | TNull => false
  | TArr _ => true
  | TStr s => negb (String.eqb s EmptyString)
  end.

Definition get_target (data : value) (t : target) : value :=
  match t with
  | TArr p => Lodash.get data p
  | TStr s => Lodash.get_str data s
  | TUndef | TNull => VUndef
  end.

(** A function context: what [context[name]] holds when it is a function.
    Capabilities are pure functions of their resolved arguments. *)
Definition context := string -> option (list value -> value).

(* ===================================================================== *)
(** ** resolver *)
(* ===================================================================== *)

Module Resolver.

Definition nameProp : string := "fn".
Definition argsProp : string := "args".

Definition collectArrayValues (pathStr : string) (data : value) : value :=
  VArr (map (Lodash.get data) (PathUtils.getDataPathsForRefPath pathStr data)).

(** [targetPath[index]]; an absent target path takes the default [[]]. *)
Definition target_index (t : target) (index : nat) : W (option string) :=
  match t with
  | TUndef => ret None
  | TNull => throw
  | TArr p => ret (p !! index)
  | TStr s => ret (Js.string_get s index)
  end.

Fixpoint relative_tokens (t : target) (index : nat) (pathArr : list string)
  : W (list (option string)) :=
  match pathArr with
  | [] => ret []
  | token :: rest =>
      let* x := (if String.eqb token "^" then target_index t index
                 else ret (Some token)) in
      let* xs := relative_tokens t (S index) rest in
      ret (x :: xs)
  end.

Definition applyRelativeIndexes (pathStr : string) (t : target) : W string :=
  let* toks := relative_tokens t O (JsString.split "." pathStr) in
  ret (JsString.join_opt "." toks).

Definition value_warning : string :=
  "$value specified, but no targetPath defined".

(** The [$value] block of [resolveString]: it returns only when a target
    path is given, and otherwise warns and falls through. *)
Definition value_sentinel (s : string) (data : value) (t : target)
  : W (option value) :=
  if String.eqb s "$value" then
    if target_truthy t then ret (Some (get_target data t))
    else run warn value_warning in ret None
  else ret None.

Definition resolveString (s : string) (data : value) (t : target) : W value :=
  let* returned := value_sentinel s data t in
  match returned with
  | Some v => ret v
  | None =>
      if JsString.starts_with "$." s then
        let* pathStr :=
          (if JsString.contains_char "^" s
           then let* rel := applyRelativeIndexes (JsString.remove_first "$." s) t in
                ret ("$." +:+ rel)
           else ret s) in
        if JsString.contains_char "*" pathStr
        then ret (collectArrayValues pathStr data)
        else ret (Lodash.get_str data (JsString.remove_first "$." pathStr))
      else ret (VStr s)
  end.

Fixpoint resolve (ctx : context) (data : value) (t : target)
  (resolvable : value) {struct resolvable} : W value :=
  let resolve_items :=
    fix go (l : list value) : W (list value) :=
      match l with
      | [] => ret []
      | x :: r =>
          let* y := resolve ctx data t x in
          let* ys := go r in ret (y :: ys)
      end in
  if Js.is_nullish resolvable then throw
  else
    match ctx (Js.toString (Js.prop resolvable nameProp)) with
    | Some f =>
        (* Array.isArray(resolvable[argsProp]) ? resolvable[argsProp] : [] *)
        let* args :=
          match resolvable with
          | VObj fields =>
              (fix find (fs : list (string * value)) : W (list value) :=
                 match fs with
                 | [] => ret []
                 | (k, x) :: r =>
                     if String.eqb k argsProp
                     then match x with
                          | VArr l => resolve_items l
                          | _ => ret []
                          end
                     else find r
                 end) fields
          | _ => ret []
          end in
        ret (f args)
    | None =>
        match resolvable with
        | VStr s => resolveString s data t
        | VArr items => let* l := resolve_items items in ret (VArr l)
        | VObj fields =>
            let* fs :=
              (fix go (fs : list (string * value)) : W (list (string * value)) :=
                 match fs with
                 | [] => ret []
                 | (k, x) :: r =>
                     let* y := resolve ctx data t x in
                     let* ys := go r in ret ((k, y) :: ys)
                 end) fields in
            ret (VObj fs)
        | _ => ret resolvable
        end
    end.

End Resolver.

(* ===================================================================== *)
(** ** The store: objects and arrays as mutable cells *)
(* ===================================================================== *)

Module Heap.

Abbreviation loc := nat (only parsing).

(** A value held in a variable or a slot: a primitive, or a reference to
    an object or array. *)
Inductive hval : Type :=
| HUndef
| HNull
| HBool (b : bool)
| HNum (n : Z)
| HStr (s : string)
| HRef (l : loc).

Inductive cell : Type :=
| CArr (items : list hval)
| CObj (fields : list (string * hval)).

(** Cells are never freed; a fresh object takes the next location. *)
Abbreviation store := (list cell).

(** Building a fresh copy of a tree, children first. *)
Fixpoint alloc (v : value) (st : store) : store * hval :=
  match v with
  | VUndef => (st, HUndef)
  | VNull => (st, HNull)
  | VBool b => (st, HBool b)
  | VNum n => (st, HNum n)
  | VStr s => (st, HStr s)
  | VArr items =>
      let '(st', hs) :=
        (fix go (l : list value) (st : store) : store * list hval :=
           match l with
           | [] => (st, [])
           | x :: r =>
               let '(st1, h) := alloc x st in
               let '(st2, hs) := go r st1 in
               (st2, h :: hs)
           end) items st in
      (st' ++ [CArr hs], HRef (length st'))
  | VObj fields =>
      let '(st', hs) :=
        (fix go (l : list (string * value)) (st : store)
           : store * list (string * hval) :=
           match l with
           | [] => (st, [])
           | (k, x) :: r =>
               let '(st1, h) := alloc x st in
               let '(st2, hs) := go r st1 in
               (st2, (k, h) :: hs)
           end) fields st in
      (st' ++ [CObj hs], HRef (length st'))
  end.

(** The tree seen through a reference, read to a bounded depth. *)
Fixpoint reify (fuel : nat) (st : store) (h : hval) : option value :=
  match h with
  | HUndef => Some VUndef
  | HNull => Some VNull
  | HBool b => Some (VBool b)
  | HNum n => Some (VNum n)
  | HStr s => Some (VStr s)
  | HRef l =>
      match fuel with
      | O => None
      | S fuel' =>
          match st !! l with
          | None => None
          | Some (CArr items) =>
              option_map VArr
                ((fix go (l : list hval) : option (list value) :=
                    match l with
                    | [] => Some []
                    | x :: r =>
                        match reify fuel' st x, go r with
                        | Some y, Some ys => Some (y :: ys)
                        | _, _ => None
                        end
                    end) items)
          | Some (CObj fields) =>
              option_map VObj
                ((fix go (l : list (string * hval)) : option (list (string * value)) :=
                    match l with
                    | [] => Some []
                    | (k, x) :: r =>
                        match reify fuel' st x, go r with
                        | Some y, Some ys => Some ((k, y) :: ys)
                        | _, _ => None
                        end
                    end) fields)
          end
      end
  end.

(** Reading the whole tree below a reference.  A store of [n] cells
    holds no acyclic structure deeper than [n]; data that is cyclic or
    dangling is outside the model and reads as [None]. *)
Definition read (st : store) (h : hval) : option value :=
  reify (S (length st)) st h.

(** [_.cloneDeep] of a data tree: a copy made of fresh cells only. *)
Definition cloneDeep (st : store) (h : hval) : option (store * hval) :=
  match read st h with
  | Some v => Some (alloc v st)
  | None => None
  end.

(** [object[key]] on a cell. *)
Definition cell_prop (c : cell) (key : string) : hval :=
  match c with
  | CObj fields => default HUndef (Js.assoc key fields)
  | CArr items =>
      match JsString.to_index key with
      | Some i => default HUndef (items !! i)
      | None => HUndef
      end
  end.

(** [object[key] = v] on a cell.  Writing past the end of an array pads
    it; a property of an array that is not an index is not one of its
    elements and is not kept by the model. *)
Definition cell_assign (key : string) (v : hval) (c : cell) : cell :=
  match c with
  | CObj fields => CObj (Js.assign key v fields)
  | CArr items =>
      match JsString.to_index key with
      | Some i =>
          if (i <? length items)%nat then CArr (<[i := v]> items)
          else CArr (items ++ replicate (i - length items) HUndef ++ [v])
      | None => CArr items
      end
  end.

Definition hprop (st : store) (l : loc) (key : string) : hval :=
  match st !! l with
  | Some c => cell_prop c key
  | None => HUndef
  end.

Definition hassign (st : store) (l : loc) (key : string) (v : hval) : store :=
  match st !! l with
  | Some c => <[l := cell_assign key v c]> st
  | None => st
  end.

Definition unsafe_key (key : string) : bool :=
  String.eqb key "__proto__" || String.eqb key "constructor"
  || String.eqb key "prototype".

(** [isIndex] of lodash on a path token. *)
Definition isIndex (key : string) : bool :=
  bool_decide (is_Some (JsString.to_index key)).

(** The loop of lodash's [baseSet], from the object at [nested]. *)
Fixpoint baseSet (st : store) (nested : loc) (p : path) (v : hval) : store :=
  match p with
  | [] => st
  | key :: rest =>
      if unsafe_key key then st
      else
        match rest with
        | [] => hassign st nested key v
        | next :: _ =>
            match hprop st nested key with
            | HRef l' => baseSet st l' rest v
            | _ =>
                let fresh := length st in
                let st1 := st ++ [if isIndex next then CArr [] else CObj []] in
                baseSet (hassign st1 nested key (HRef fresh)) fresh rest v
            end
        end
  end.

(** [_.set(object, path, v)]: nothing happens unless [object] is an
    object. *)
Definition set (st : store) (object : hval) (p : path) (v : hval) : store :=
  match object with
  | HRef l => baseSet st l p v
  | _ => st
  end.

End Heap.

(** A computation that also reads and writes the store.  The store
    survives an exception: what was written before it stays written. *)
Definition SW (A : Type) : Type :=
  Heap.store -> (list string * Heap.store * option A)%type.

Definition retS {A : Type} (a : A) : SW A := fun st => ([], st, Some a).
Definition throwS {A : Type} : SW A := fun st => ([], st, None).
Definition liftW {A : Type} (m : W A) : SW A := fun st => (fst m, st, snd m).

Definition bindS {A B : Type} (m : SW A) (k : A -> SW B) : SW B :=
  fun st =>
    match m st with
    | (l, st1, None) => (l, st1, None)
    | (l, st1, Some a) => let '(l', st2, r) := k a st1 in (l ++ l', st2, r)
    end.

Notation "'let!' x ':=' m 'in' k" := (bindS m (fun x => k))
  (at level 10, x name, m at level 200, k at level 200).

(** Reading the tree below a reference. *)
Definition readS (h : Heap.hval) : SW value :=
  fun st => ([], st, Heap.read st h).

Definition modifyS (f : Heap.store -> Heap.store) : SW unit :=
  fun st => ([], f st, Some tt).

Definition modifyS_ret {A : Type} (f : Heap.store -> Heap.store * A) : SW A :=
  fun st => ([], fst (f st), Some (snd (f st))).

Definition cloneDeepS (h : Heap.hval) : SW Heap.hval :=
  fun st =>
    match Heap.cloneDeep st h with
    | Some (st', h') => ([], st', Some h')
    | None => ([], st, None)
    end.

(** [list.forEach(f)] *)
Fixpoint forEachS {A : Type} (f : A -> SW unit) (l : list A) : SW unit :=
  match l with
  | [] => retS tt
  | x :: r => let! _ := f x in forEachS f r
  end.

Definition final_store {A : Type} (o : list string * Heap.store * option A)
  : Heap.store := snd (fst o).
Definition outcome {A : Type} (o : list string * Heap.store * option A)
  : option A := snd o.

(* ===================================================================== *)
(** ** index: the engine *)
(* ===================================================================== *)

Module Engine.

Import Heap.

(** The Config Index, an external collaborator: the ordered workflow
    nodes and edges, the derived entries, and the lookup of a
    configuration node by ref-path ([VUndef] when there is none). *)
Record config : Type := Config {
  nodes : list value;
  edges : list value;
  derived : option (list value);
  getConfigNodeByPath : string -> value
}.

Record message : Type := Message { m_path : string; m_message : value }.

Record section_state : Type := SectionState {
  status : string;
  validationMessages : list message
}.

Definition is_str (v : value) (s : string) : bool :=
  match v with VStr x => String.eqb x s | _ => false end.

Definition isRefString (val : value) : bool :=
  match val with
  | VStr s => JsString.starts_with "$." s
  | _ => false
  end.

(** *** Preconditions *)

(** [preconditions.reduce((memo, p) => memo && resolve(p, ...), true)]:
    a precondition is resolved only while [memo] is truthy. *)
Fixpoint preconditions_reduce (ctx : context) (data : value) (t : target)
  (memo : value) (ps : list value) : W value :=
  match ps with
  | [] => ret memo
  | p :: rest =>
      if Js.truthy memo
      then let* r := Resolver.resolve ctx data t p in
           preconditions_reduce ctx data t r rest
      else preconditions_reduce ctx data t memo rest
  end.

Definition preconditionsMet (configNode data : value) (ctx : context)
  (dataPath : target) : W value :=
  let* preconditions := get_prop configNode "preconditions" in
  match preconditions with
  | VArr ps => preconditions_reduce ctx data dataPath (VBool true) ps
  | _ => ret (VBool true)
  end.

(** *** Pruning *)

(** The body of [paths.forEach] in [pruneData].  [data] is the caller's
    reference and is read through the store as it is at that moment;
    the write goes through [result]. *)
Definition prune_path (cfg : config) (ctx : context) (data result : hval)
  (dep : string) (p : path) : SW unit :=
  let! tree := readS data in
  let! met := liftW (preconditionsMet (getConfigNodeByPath cfg dep) tree ctx (TArr p)) in
  if Js.truthy met then retS tt
  else modifyS (fun st => set st result p HUndef).

(** The body of [depOrder.forEach]. *)
Definition prune_dep (cfg : config) (ctx : context) (data result : hval)
  (dep : value) : SW unit :=
  match dep with
  | VStr d =>
      let! tree := readS data in
      forEachS (prune_path cfg ctx data result d)
        (PathUtils.getDataPathsForRefPath d tree)
  | _ => throwS
  end.

Definition pruneData (data : hval) (cfg : config) (depOrder : list value)
  (ctx : context) : SW hval :=
  let! result := cloneDeepS data in
  let! _ := forEachS (prune_dep cfg ctx data result) depOrder in
  retS result.

(** The pass as the specification words it: every decision is taken on
    the snapshot [tree] of the input as it was on entry, and only the
    writes go through the store. *)
Definition prune_path_on (tree : value) (cfg : config) (ctx : context)
  (result : hval) (dep : string) (p : path) : SW unit :=
  let! met := liftW (preconditionsMet (getConfigNodeByPath cfg dep) tree ctx (TArr p)) in
  if Js.truthy met then retS tt
  else modifyS (fun st => set st result p HUndef).

Definition prune_dep_on (tree : value) (cfg : config) (ctx : context)
  (result : hval) (dep : value) : SW unit :=
  match dep with
  | VStr d =>
      forEachS (prune_path_on tree cfg ctx result d)
        (PathUtils.getDataPathsForRefPath d tree)
  | _ => throwS
  end.

Definition pruneData_on (tree : value) (cfg : config) (depOrder : list value)
  (ctx : context) : SW hval :=
  let! result := modifyS_ret (alloc tree) in
  let! _ := forEachS (prune_dep_on tree cfg ctx result) depOrder in
  retS result.

(** *** Derived values *)

Definition evaluateDerived (data : value) (derivedConfigNode : option (list value))
  (ctx : context) : W (list (string * value)) :=
  foldW (fun memo d =>
           let* id := get_prop d "id" in
           let* v := Resolver.resolve ctx data TNull d in
           ret (Js.assign (Js.toString id) v memo))
    (default [] derivedConfigNode) [].

(** *** Section validation *)

Definition isArrayPath (p : string) : bool := JsString.contains_char "*" p.

(** The [while (item = pathArr.pop())] loop, on the reversed tokens. *)
Fixpoint nearest_repeatable (rev_tokens : list string) : option string :=
  match rev_tokens with
  | [] => None
  | item :: rest =>
      if String.eqb item EmptyString then None
      else if String.eqb item "*"
           then Some (JsString.join "." (rev rest) +:+ ".*")
           else nearest_repeatable rest
  end.

Definition getNearestRepeatableAncestorRefPath (p : string) : option string :=
  nearest_repeatable (rev (JsString.split "." p)).

Definition getAbsoluteDataPath (rootDataPath refPath : string) : string :=
  let dataArr := JsString.split "." rootDataPath in
  let refArr := JsString.split "." (JsString.remove_first "$." refPath) in
  JsString.join "." (dataArr ++ drop (length dataArr) refArr).

Definition isBlank (v : value) : bool :=
  match v with
  | VUndef => true
  | VStr s => String.eqb s EmptyString
  | _ => false
  end.

Definition dataNodeIsBlank (p : string) (data : value) : bool :=
  match Lodash.get_str data p with
  | VUndef => true
  | VStr s => String.eqb s EmptyString
  | VArr [] => true
  | VArr (x :: _) => isBlank x
  | _ => false
  end.

(** [this.path] inside [resolveRequiredMessage]: the function is called
    plainly, so [this] is the global object, which has no [path]. *)
Definition this_path : target := TUndef.

(** The [reduce] of [resolveRequiredMessage] over the resolved array. *)
Fixpoint required_reduce (requiredNode : value) (index : nat)
  (results : list value) (memo : value) : W value :=
  match results with
  | [] => ret memo
  | r :: rest =>
      if Js.truthy r && negb (Js.truthy memo)
      then let* m := get_prop (Js.prop requiredNode (JsString.of_nat index)) "message" in
           required_reduce requiredNode (S index) rest m
      else required_reduce requiredNode (S index) rest memo
  end.

Definition resolveRequiredMessage (requiredNode data : value) (ctx : context)
  (p : string) : W value :=
  let* resolvedRequired := Resolver.resolve ctx data this_path requiredNode in
  match resolvedRequired with
  | VArr results => required_reduce requiredNode O results (VBool false)
  | _ => ret resolvedRequired
  end.

Definition validateRequired (configNode data : value) (ctx : context)
  (p : string) : W (option message) :=
  let* required := get_prop configNode "required" in
  let* requiredMessage := resolveRequiredMessage required data ctx p in
  if Js.truthy requiredMessage then
    let* met := preconditionsMet configNode data ctx (TStr p) in
    if Js.truthy met && dataNodeIsBlank p data
    then ret (Some (Message p requiredMessage))
    else ret None
  else ret None.

Definition applyRequiredValidationIfMissing (configNode data : value)
  (ctx : context) (p : string) (messageArr : list message) : W (list message) :=
  let* validationMessage := validateRequired configNode data ctx p in
  match validationMessage with
  | Some m => ret (messageArr ++ [m])
  | None => ret messageArr
  end.

(** The [for] loop of [validateCustom]. *)
Fixpoint first_failing (ctx : context) (data : value) (p : path)
  (validations : list value) : W (option message) :=
  match validations with
  | [] => ret None
  | validation :: rest =>
      let* r := Resolver.resolve ctx data (TArr p) validation in
      match r with
      | VBool false =>
          ret (Some (Message (JsString.join "." p) (Js.prop validation "message")))
      | _ => first_failing ctx data p rest
      end
  end.

Definition validateCustom (configNode data : value) (ctx : context) (p : path)
  : W (option message) :=
  let configNode := match configNode with VUndef => VObj [] | _ => configNode end in
  let* validations := get_prop configNode "validations" in
  if negb (Js.truthy validations) then ret None
  else
    let* met := preconditionsMet configNode data ctx (TArr p) in
    if Js.truthy met && negb (isBlank (Lodash.get data p)) then
      match validations with
      | VArr l => first_failing ctx data p l
      | VStr s => first_failing ctx data p (Js.chars s)
      | _ => ret None
      end
    else ret None.

(** [find(messageArr, {path: s})] as a truth value. *)
Definition find_path (messageArr : list message) (s : string) : bool :=
  existsb (fun m => String.eqb (m_path m) s) messageArr.

Definition applyCustomValidationIfFails (configNode data : value)
  (ctx : context) (p : path) (messageArr : list message) : W (list message) :=
  let* validationMessage := validateCustom configNode data ctx p in
  match validationMessage with
  | Some m =>
      if negb (find_path messageArr (JsString.join "." p))
      then ret (messageArr ++ [m]) else ret messageArr
  | None => ret messageArr
  end.

(** The callback of [traverse(node).forEach] in [evaluateSectionStates]. *)
Definition required_check (data : value) (ctx : context)
  (messageArr : list message) (n : value) : W (list message) :=
  if Js.truthy n && Js.truthy (Js.prop n "required") then
    match Js.prop n "path" with
    | VStr npath =>
        if negb (isArrayPath npath) then
          applyRequiredValidationIfMissing n data ctx
            (JsString.remove_first "$." npath) messageArr
        else
          let pathHead := JsString.join "." (removelast (JsString.split "." npath)) in
          if negb (isArrayPath pathHead) then
            applyRequiredValidationIfMissing n data ctx
              (JsString.remove_first "$." pathHead) messageArr
          else
            match getNearestRepeatableAncestorRefPath pathHead with
            | None => throw
            | Some ancestorRefPath =>
                foldW (fun msgs dataPath =>
                         applyRequiredValidationIfMissing n data ctx
                           (getAbsoluteDataPath (JsString.join "." dataPath) npath)
                           msgs)
                  (PathUtils.getDataPathsForRefPath ancestorRefPath data)
                  messageArr
            end
    | _ => throw
    end
  else ret messageArr.

(** The callback of [traverse(data[sectionId]).forEach]. *)
Definition custom_check (cfg : config) (data : value) (ctx : context)
  (sectionId : string) (messageArr : list message) (v : Traverse.visit)
  : W (list message) :=
  let absolutePath := sectionId :: Traverse.v_path v in
  if Traverse.v_isLeaf v then
    applyCustomValidationIfFails
      (getConfigNodeByPath cfg (PathUtils.getRefPathForDataPath absolutePath))
      data ctx absolutePath messageArr
  else ret messageArr.

(** The two passes over one section.  Section ids are strings, as the
    Config Index keys nodes by them. *)
Definition section_messages (cfg : config) (data : value) (ctx : context)
  (node : value) (sectionId : string) : W (list message) :=
  let* required := foldW (required_check data ctx)
                     (map Traverse.v_node (Traverse.forEach node)) [] in
  let* section := get_prop data sectionId in
  foldW (custom_check cfg data ctx sectionId) (Traverse.forEach section) required.

Definition evaluateSectionStates (data : value) (cfg : config) (ctx : context)
  : W (list (string * section_state)) :=
  let data := match data with VUndef => VObj [] | _ => data end in
  foldW (fun memo node =>
           let* id := get_prop node "id" in
           match id with
           | VStr sectionId =>
               let* msgs := section_messages cfg data ctx node sectionId in
               ret (Js.assign sectionId
                      (SectionState
                         (match msgs with [] => "valid" | _ => "invalid" end)
                         msgs) memo)
           | _ => throw
           end)
    (nodes cfg) [].

(** *** Graph evaluation *)

Definition isTerminalNodePath (p : value) : bool :=
  is_str p "START" || is_str p "END".

Section WithToposort.

(** The [toposort] package, an external collaborator: it orders the
    nodes of a list of [[a, b]] pairs so that [a] comes before [b], and
    throws ([None]) on a cycle. *)
Variable toposort : list (value * value) -> option (list value).

Definition getNodeEvaluationOrder (edges : list value) : W (list value) :=
  let* deps := mapW (fun edge =>
                       let* to := get_prop edge "to" in
                       let* from := get_prop edge "from" in
                       ret (to, from)) edges in
  match toposort ((VStr "END", VStr "START") :: deps) with
  | Some order => ret (rev order)
  | None => throw
  end.

(** The accumulator of the [reduce] over the evaluation order ([None]
    once the callback has returned nothing), with [frontierFound]. *)
Definition node_acc : Type := (option (list (string * value)) * bool)%type.

Definition node_status (cfg : config) (data : value) (ctx : context)
  (sectionStates : list (string * section_state))
  (acc : node_acc) (nodePath : value) : W node_acc :=
  let '(memo, frontierFound) := acc in
  match memo with
  | None => throw
  | Some m =>
      let key := Js.toString nodePath in
      if isTerminalNodePath nodePath
      then ret (Some (Js.assign key (VStr "active") m), frontierFound)
      else
        let node := getConfigNodeByPath cfg ("$." +:+ key) in
        if frontierFound
        then ret (Some (Js.assign key (VStr "inactive") m), frontierFound)
        else
          let* type := get_prop node "type" in
          if is_str type "input_section" then
            match Js.prop node "id" with
            | VStr id =>
                match Js.assoc (JsString.remove_first "$." id) sectionStates with
                | Some s =>
                    if String.eqb (status s) "valid"
                    then ret (Some (Js.assign key (VStr "active") m), false)
                    else ret (Some (Js.assign key (VStr "inactive") m), true)
                | None => throw
                end
            | _ => throw
            end
          else if is_str type "decision" then
            let* out := Resolver.resolve ctx data TNull (Js.prop node "output") in
            ret (Some (Js.assign key out m), false)
          else ret (None, false)
  end.

Definition nodeStatuses (cfg : config) (data : value) (ctx : context)
  (sectionStates : list (string * section_state)) (order : list value)
  : W node_acc :=
  foldW (node_status cfg data ctx sectionStates) order (Some [], false).

(** The status given to an edge leaving [fromNode]. *)
Definition edge_status (fromNode : value) (nodeStatus when_input_is : value)
  : value :=
  if is_str (Js.prop fromNode "type") "decision"
     && negb (is_str nodeStatus "inactive")
  then VStr (if Js.truthy nodeStatus
             then (if Js.truthy when_input_is then "active" else "inactive")
             else (if Js.truthy when_input_is then "inactive" else "active"))
  else nodeStatus.

(** The callback of [edges.map]. *)
Definition edge_state (cfg : config) (statuses : option (list (string * value)))
  (edge : value) : W value :=
  match statuses with
  | None => throw
  | Some m =>
      let* from := get_prop edge "from" in
      let nodeStatus := default VUndef (Js.assoc (Js.toString from) m) in
      let found := getConfigNodeByPath cfg ("$." +:+ Js.toString from) in
      let fromNode := if Js.truthy found then found else VObj [] in
      ret (VObj (Js.assign "status"
                   (edge_status fromNode nodeStatus (Js.prop edge "when_input_is"))
                   (Js.own_fields edge)))
  end.

Definition evaluateEdgeStates (data : value) (cfg : config) (ctx : context)
  (sectionStates : list (string * section_state)) : W (list value) :=
  let data := match data with VUndef => VObj [] | _ => data end in
  let* nodeEvaluationOrder := getNodeEvaluationOrder (edges cfg) in
  let* acc := nodeStatuses cfg data ctx sectionStates nodeEvaluationOrder in
  mapW (edge_state cfg (fst acc)) (edges cfg).

(** *** The engine object and its entry point *)

(** [traverse(nodes).forEach] of [orderPreconditions]: the pairs
    [[dependantPath, preconNode]] in the order they are pushed. *)
Definition precondition_deps (nodes : list value) : list (value * value) :=
  flat_map
    (fun node =>
       if Js.truthy node && Js.truthy (Js.prop node "preconditions")
       then map (fun preconNode => (Js.prop node "path", preconNode))
              (filter (fun x => isRefString x = true)
                 (map Traverse.v_node
                    (Traverse.forEach (Js.prop node "preconditions"))))
       else [])
    (map Traverse.v_node (Traverse.forEach (VArr nodes))).

Definition orderPreconditions (cfg : config) : option (list value) :=
  option_map (@rev value) (toposort (precondition_deps (nodes cfg))).

Record engine : Type := DataEngine {
  getConfig : config;
  getContext : context;
  getPreconditionOrder : list value
}.

(** [create(config, context)]; the configuration is taken as already
    indexed and the context as already merged over the defaults. *)
Definition create (cfg : config) (ctx : context) : option engine :=
  option_map (DataEngine cfg ctx) (orderPreconditions cfg).

Record workflow_state : Type := WorkflowState {
  ws_data : hval;
  ws_derived : list (string * value);
  ws_input_section_states : list (string * section_state);
  ws_edge_states : list value
}.

Definition getWorkflowState (e : engine) (data : hval) : SW workflow_state :=
  let! pruned := pruneData data (getConfig e) (getPreconditionOrder e)
                   (getContext e) in
  let! prunedData := readS pruned in
  let! sectionStates :=
    liftW (evaluateSectionStates prunedData (getConfig e) (getContext e)) in
  let! derivedValues :=
    liftW (evaluateDerived prunedData (derived (getConfig e)) (getContext e)) in
  let! edgeStates :=
    liftW (evaluateEdgeStates prunedData (getConfig e) (getContext e)
             sectionStates) in
  retS (WorkflowState pruned derivedValues sectionStates edgeStates).

End WithToposort.

End Engine.

(* ===================================================================== *)
(** ** Notions used to state the properties *)
(* ===================================================================== *)

Module PathNotions.

Import JsString PathUtils.

(** Token-wise matching, without the running index. *)
Fixpoint all_match (refPath : list string) (dataPath : path) : bool :=
  match refPath, dataPath with
  | [], _ => true
  | t :: ts, d :: ds => token_matches t d && all_match ts ds
  | _ :: _, [] => false
  end.

(** The token [getRefPathForDataPath] writes for a path token. *)
Definition pattern_token (prop : string) : string :=
  if negb (isNaN prop) then "*" else prop.

Fixpoint dotted (toks : list string) : string :=
  match toks with
  | [] => EmptyString
  | t :: ts => String "." (t +:+ dotted ts)
  end.

(** A token that survives the round trip: it holds no dot, and it is a
    key (not numeric) or holds a digit. *)
Definition token_ok (t : string) : bool :=
  negb (contains_char "." t) && (isNaN t || has_digit t).

(** The final token is a key other than [*]. *)
Definition final_key (p : path) : bool :=
  match last p with
  | Some t => isNaN t && negb (String.eqb t "*")
  | None => false
  end.

End PathNotions.

(** Small configurations and data trees on which the model is run. *)
Module Examples.

(** [{a: {x1: 5}}]: an object, not an array, under [a]. *)
Definition keyed_group : value := VObj [("a", VObj [("x1", VNum 5)])].

(** [{a: [1]}] *)
Definition one_item : value := VObj [("a", VArr [VNum 1])].

(** [{a: [{b: 1}]}] *)
Definition one_group : value := VObj [("a", VArr [VObj [("b", VNum 1)]])].

Definition no_functions : context := fun _ => None.

End Examples.

(** What the store keeps across the engine's writes. *)
Module StoreNotions.

Import Heap.

(** Every cell of [st] is still there, unchanged, in [st']. *)
Definition extends (st st' : store) : Prop :=
  forall (l : loc) (c : cell), st !! l = Some c -> st' !! l = Some c.

(** A slot that does not point below location [n]. *)
Definition above (n : nat) (h : hval) : Prop :=
  match h with
  | HRef l => n <= l
  | _ => True
  end.

Definition cell_above (n : nat) (c : cell) : Prop :=
  match c with
  | CArr items => Forall (above n) items
  | CObj fields => Forall (fun kv => above n (snd kv)) fields
  end.

(** The store is [st0] followed by cells that never point back into
    [st0]: the working copy and what [set] allocates. *)
Definition grown_from (st0 st : store) : Prop :=
  exists ext : store,
    st = st0 ++ ext /\ Forall (cell_above (length st0)) ext.

(** A computation that keeps a property of the store, whether or not it
    throws. *)
Definition keeps {A : Type} (I : store -> Prop) (m : SW A) : Prop :=
  forall st : store, I st -> I (final_store (m st)).

End StoreNotions.

(** Where a clearing write lands, and what it leaves alone. *)
Module ClearingNotions.

Import Heap.

(** The cell and key that [baseSet] reaches when every token of the path
    but the last leads to an object that is already there. *)
Fixpoint locate (st : store) (nested : loc) (p : path) : option (loc * string) :=
  match p with
  | [] => None
  | key :: rest =>
      match rest with
      | [] => Some (nested, key)
      | _ :: _ =>
          match hprop st nested key with
          | HRef l' => locate st l' rest
          | _ => None
          end
      end
  end.

(** The key is a key of the object, or an index within the array. *)
Definition slot_present (c : cell) (key : string) : bool :=
  match c with
  | CObj fields => bool_decide (is_Some (Js.assoc key fields))
  | CArr items =>
      match JsString.to_index key with
      | Some i => (i <? length items)%nat
      | None => false
      end
  end.

(** The keys of an object in order, or the length of an array. *)
Definition cell_shape (c : cell) : list string + nat :=
  match c with
  | CObj fields => inl (map fst fields)
  | CArr items => inr (length items)
  end.

Definition safe_path (p : path) : bool :=
  forallb (fun key => negb (unsafe_key key)) p.

(** The same on trees, to compare the input with the pruned output. *)
Definition shape (v : value) : option (list string + nat) :=
  match v with
  | VObj fields => Some (inl (map fst fields))
  | VArr items => Some (inr (length items))
  | _ => None
  end.

Definition at_path (v : value) (p : path) : value :=
  default VUndef (Lodash.baseGet v p).

(** Clearing in place, on a pruned path [p]: in the output the container around
    the slot has the keys (or the length) it had in the input, and the
    slot holds [undefined]. *)
Definition cleared_in_place (before after : value) (p : path) : bool :=
  match last p with
  | None => false
  | Some _ =>
      bool_decide (shape (at_path after (removelast p))
                   = shape (at_path before (removelast p)))
      && bool_decide (shape (at_path before (removelast p)) <> None)
      && match at_path after p with VUndef => true | _ => false end
  end.

End ClearingNotions.

(** A configuration in which a group and a field of the group are both
    pruned: [$.a] needs [$.flag], and [$.a.b] needs [$.flag] and [$.a]. *)
Module Cascade.

Definition data : value :=
  VObj [("flag", VBool false);
        ("a", VObj [("b", VNum 1); ("c", VNum 2)])].

Definition node_flag : value := VObj [("path", VStr "$.flag")].
Definition node_a : value :=
  VObj [("path", VStr "$.a"); ("preconditions", VArr [VStr "$.flag"])].
Definition node_b : value :=
  VObj [("path", VStr "$.a.b");
        ("preconditions", VArr [VStr "$.flag"; VStr "$.a"])].

Definition lookup (p : string) : value :=
  if String.eqb p "$.flag" then node_flag
  else if String.eqb p "$.a" then node_a
  else if String.eqb p "$.a.b" then node_b
  else VUndef.

Definition cfg : Engine.config :=
  Engine.Config [node_flag; node_a; node_b] [] None lookup.

(** The one order compatible with the dependencies, dependencies first. *)
Definition depOrder : list value := [VStr "$.flag"; VStr "$.a"; VStr "$.a.b"].

(** The caller's store holds the data and nothing else. *)
Definition st0 : Heap.store := fst (Heap.alloc data []).
Definition root : Heap.hval := snd (Heap.alloc data []).

Definition pass := Engine.pruneData root cfg depOrder Examples.no_functions st0.

Definition pruned : option value :=
  match outcome pass with
  | Some result => Heap.read (final_store pass) result
  | None => None
  end.

End Cascade.

(** Sections on which the two validation passes meet. *)
Module Validation.

Definition never : list value -> value := fun _ => VBool false.

Definition ctx : context :=
  fun name => if String.eqb name "never" then Some never else None.

Definition failing_rule : value :=
  VObj [("fn", VStr "never"); ("message", VStr "bad")].

(** A required list that is empty: the required check and the custom
    check both fail on the path [sec.items]. *)
Definition items_node : value :=
  VObj [("path", VStr "$.sec.items");
        ("required", VStr "Required!");
        ("validations", VArr [failing_rule])].

Definition section : value :=
  VObj [("id", VStr "sec"); ("path", VStr "$.sec"); ("items", items_node)].

Definition cfg : Engine.config :=
  Engine.Config [section] [] None
    (fun p => if String.eqb p "$.sec.items" then items_node
              else if String.eqb p "$.sec" then section else VUndef).

Definition data : value := VObj [("sec", VObj [("items", VArr [])])].

(** No required rule at all, and two leaves, [sec["a.b"]] and [sec.a.b],
    whose paths join to the same string. *)
Definition field_node : value :=
  VObj [("path", VStr "$.sec.a.b"); ("validations", VArr [failing_rule])].

Definition plain_section : value :=
  VObj [("id", VStr "sec"); ("path", VStr "$.sec")].

Definition dotted_cfg : Engine.config :=
  Engine.Config [plain_section] [] None
    (fun p => if String.eqb p "$.sec.a.b" then field_node
              else if String.eqb p "$.sec" then plain_section else VUndef).

Definition dotted_data : value :=
  VObj [("sec", VObj [("a.b", VStr "x"); ("a", VObj [("b", VStr "y")])])].


End Validation.

(** Orders and workflow graphs for the graph evaluator. *)
Module GraphNotions.

Import Engine.

(** The status every node gets once the frontier is found. *)
Definition blocked_status (nodePath : value) : value :=
  VStr (if isTerminalNodePath nodePath then "active" else "inactive").

Definition block (m : list (string * value)) (post : list value)
  : list (string * value) :=
  fold_left (fun m n => Js.assign (Js.toString n) (blocked_status n) m) post m.

Definition is_string (v : value) : bool :=
  match v with VStr _ => true | _ => false end.

Fixpoint index_of (x : string) (l : list string) : option nat :=
  match l with
  | [] => None
  | y :: r => if String.eqb y x then Some O else option_map S (index_of x r)
  end.

Definition before (a b : string) (l : list string) : bool :=
  match index_of a l, index_of b l with
  | Some i, Some j => (i <? j)%nat
  | _, _ => false
  end.

Definition nodes_of (deps : list (string * string)) : list string :=
  remove_dups (flat_map (fun d => [fst d; snd d]) deps).

(** What [toposort] promises of its result [l] on the pairs [deps]: the
    nodes of the pairs, each once, the first of every pair before the
    second. *)
Definition topological (deps : list (string * string)) (l : list string) : bool :=
  (length l =? length (nodes_of deps))%nat
  && forallb (fun n => existsb (String.eqb n) l) (nodes_of deps)
  && forallb (fun d => before (fst d) (snd d) l) deps.

Definition as_values (deps : list (string * string)) : list (value * value) :=
  map (fun d => (VStr (fst d), VStr (snd d))) deps.

End GraphNotions.

(** [START -> S1 -> S2 -> END] with [S1] invalid. *)
Module Chain.

Definition section_node (id : string) : value :=
  VObj [("id", VStr id); ("type", VStr "input_section")].

Definition edge (from to : string) : value :=
  VObj [("from", VStr from); ("to", VStr to)].

Definition cfg : Engine.config :=
  Engine.Config [section_node "S1"; section_node "S2"]
    [edge "START" "S1"; edge "S1" "S2"; edge "S2" "END"] None
    (fun p => if String.eqb p "$.S1" then section_node "S1"
              else if String.eqb p "$.S2" then section_node "S2" else VUndef).

Definition sectionStates : list (string * Engine.section_state) :=
  [("S1", Engine.SectionState "invalid" [Engine.Message "S1.name" (VStr "Required")]);
   ("S2", Engine.SectionState "valid" [])].

(** The pairs [getNodeEvaluationOrder] hands to [toposort]. *)
Definition deps : list (string * string) :=
  [("END", "START"); ("S1", "START"); ("S2", "S1"); ("END", "S2")].

Definition with_status (e : value) (s : string) : value :=
  VObj (Js.own_fields e ++ [("status", VStr s)]).

End Chain.

(** A decision [D] whose output is [true], with a branch to [X] when the
    input is true and a branch to [Y] when it is false. *)
Module Decision.

Definition node_D : value :=
  VObj [("id", VStr "D"); ("type", VStr "decision"); ("output", VBool true)].

Definition edge (from to : string) (when : bool) : value :=
  VObj [("from", VStr from); ("to", VStr to); ("when_input_is", VBool when)].

Definition cfg : Engine.config :=
  Engine.Config [node_D; Chain.section_node "X"; Chain.section_node "Y"]
    [edge "D" "X" true; edge "D" "Y" false] None
    (fun p => if String.eqb p "$.D" then node_D
              else if String.eqb p "$.X" then Chain.section_node "X"
              else if String.eqb p "$.Y" then Chain.section_node "Y"
              else VUndef).

Definition sectionStates : list (string * Engine.section_state) :=
  [("X", Engine.SectionState "valid" []); ("Y", Engine.SectionState "valid" [])].

Definition deps : list (string * string) :=
  [("END", "START"); ("X", "D"); ("Y", "D")].

End Decision.

(** Notions on resolvable expressions. *)
Module ResolveNotions.



(** No [null] and no [undefined] anywhere in the expression. *)
Fixpoint null_free (v : value) : bool :=
  match v with
  | VUndef | VNull => false
  | VArr items =>
      (fix go (l : list value) : bool :=
         match l with
         | [] => true
         | x :: r => null_free x && go r
         end) items
  | VObj fields =>
      (fix go (l : list (string * value)) : bool :=
         match l with
         | [] => true
         | (_, x) :: r => null_free x && go r
         end) fields
  | _ => true
  end.



End ResolveNotions.

(** Well-formed data trees. *)
Module TreeNotions.

Fixpoint no_dup (l : list string) : bool :=
  match l with
  | [] => true
  | k :: r => negb (existsb (String.eqb k) r) && no_dup r
  end.

(** Every object of the tree has each of its keys once, as JavaScript
    objects do. *)
Fixpoint keys_unique (v : value) : bool :=
  match v with
  | VArr items =>
      (fix go (l : list value) : bool :=
         match l with
         | [] => true
         | x :: r => keys_unique x && go r
         end) items
  | VObj fields =>
      no_dup (map fst fields)
      && (fix go (l : list (string * value)) : bool :=
            match l with
            | [] => true
            | (_, x) :: r => keys_unique x && go r
            end) fields
  | _ => true
  end.

End TreeNotions.

(** Nodes whose preconditions are met whatever the data. *)
Module PruneNotions.

(** The dependency names a configuration node that has no preconditions,
    or an empty list of them. *)
Definition always_applicable (cfg : Engine.config) (dep : value) : bool :=
  match dep with
  | VStr d =>
      let node := Engine.getConfigNodeByPath cfg d in
      negb (Js.is_nullish node)
      && match Js.prop node "preconditions" with
         | VArr (_ :: _) => false
         | _ => true
         end
  | _ => false
  end.

End PruneNotions.

(** The children of an array and of an object in the walk. *)
Module WalkNotions.

Fixpoint array_children (pre : path) (i : nat) (l : list value)
  : list Traverse.visit :=
  match l with
  | [] => []
  | x :: r =>
      Traverse.walk (pre ++ [JsString.of_nat i]) x ++ array_children pre (S i) r
  end.

Fixpoint object_children (pre : path) (l : list (string * value))
  : list Traverse.visit :=
  match l with
  | [] => []
  | (k, x) :: r => Traverse.walk (pre ++ [k]) x ++ object_children pre r
  end.

End WalkNotions.

(* ===================================================================== *)
(** * Properties *)
(* ===================================================================== *)

(** ** The model on small inputs *)

Example ex_paths :
  Traverse.paths (VObj [("a", VArr [VNum 1; VNum 2]); ("b", VStr "x")])
  = [[]; ["a"]; ["a"; "0"]; ["a"; "1"]; ["b"]].
Proof. reflexivity. Qed.

Example ex_refpath : PathUtils.getRefPathForDataPath ["a"; "0"; "b"] = "$.a.*.b".
Proof. reflexivity. Qed.

Example ex_refpath2 : PathUtils.getRefPathForDataPath ["a"; "0"] = "$.a".
Proof. reflexivity. Qed.

Example ex_match :
  PathUtils.getDataPathsForRefPath "$.a.*"
    (VObj [("a", VObj [("x1", VNum 5)])]) = [["a"; "x1"]].
Proof. reflexivity. Qed.

Example ex_resolve_wild :
  Resolver.resolve (fun _ => None)
    (VObj [("a", VArr [VObj [("b", VNum 1)]; VObj [("b", VNum 2)]])])
    TUndef (VStr "$.a.*.b")
  = ([], Some (VArr [VNum 1; VNum 2])).
Proof. reflexivity. Qed.

Example ex_resolve_value :
  Resolver.resolve (fun _ => None) (VObj [("a", VNum 1)]) TUndef (VStr "$value")
  = ([Resolver.value_warning], Some (VStr "$value")).
Proof. reflexivity. Qed.

Example ex_resolve_rel :
  Resolver.resolve (fun _ => None)
    (VObj [("a", VArr [VObj [("b", VNum 1)]; VObj [("b", VNum 2)]])])
    (TArr ["a"; "1"; "c"]) (VStr "$.a.^.b")
  = ([], Some (VNum 2)).
Proof. reflexivity. Qed.

Example ex_alloc_read :
  let v := VObj [("a", VArr [VNum 1; VObj []]); ("b", VStr "x")] in
  let '(st, h) := Heap.alloc v [] in
  Heap.read st h = Some v.
Proof. reflexivity. Qed.

Example ex_set_recreates :
  let v := VObj [("a", VObj [("b", VNum 1); ("c", VNum 2)])] in
  let '(st, h) := Heap.alloc v [] in
  let st1 := Heap.set st h ["a"] Heap.HUndef in
  let st2 := Heap.set st1 h ["a"; "b"] Heap.HUndef in
  Heap.read st2 h = Some (VObj [("a", VObj [("b", VUndef)])]).
Proof. reflexivity. Qed.

(* ===================================================================== *)
(** ** Path matcher *)
(* ===================================================================== *)

Section StringFacts.

Import JsString.

Lemma append_assoc (a b c : string) : (a +:+ b) +:+ c = a +:+ (b +:+ c).
Proof.
  induction a as [|x a IH]; [reflexivity|].
  change (String x ((a +:+ b) +:+ c) = String x (a +:+ (b +:+ c))).
  now rewrite IH.
Qed.

Lemma append_nil_r (a : string) : a +:+ "" = a.
Proof.
  induction a as [|x a IH]; [reflexivity|].
  change (String x (a +:+ "") = String x a). now rewrite IH.
Qed.

Lemma strip_no_dot (t : string) :
  contains_char "." t = false -> strip_trailing_dot_star t = t.
Proof.
  induction t as [|a t IH]; [reflexivity|].
  cbn [contains_char strip_trailing_dot_star]. intros H.
  apply orb_false_iff in H as [Ha Ht].
  destruct (String.eqb (String a t) ".*") eqn:E.
  - apply String.eqb_eq in E. injection E as -> _. discriminate Ha.
  - now rewrite IH.
Qed.

Lemma strip_app_dot (x t : string) :
  strip_trailing_dot_star (x +:+ String "." t)
  = x +:+ strip_trailing_dot_star (String "." t).
Proof.
  induction x as [|a x IH]; [reflexivity|].
  change (String a x +:+ String "." t) with (String a (x +:+ String "." t)).
  cbn [strip_trailing_dot_star].
  destruct (String.eqb (String a (x +:+ String "." t)) ".*") eqn:E.
  - apply String.eqb_eq in E. injection E as _ E.
    destruct x as [|b x]; simpl in E; [discriminate E|].
    injection E as _ E. destruct x; discriminate E.
  - rewrite IH. reflexivity.
Qed.

Lemma split_no_dot (t : string) :
  contains_char "." t = false -> split "." t = [t].
Proof.
  induction t as [|a t IH]; [reflexivity|].
  cbn [contains_char split]. intros H.
  apply orb_false_iff in H as [Ha Ht].
  rewrite Ha, (IH Ht). reflexivity.
Qed.

Lemma split_app_dot (t rest : string) :
  contains_char "." t = false ->
  split "." (t +:+ String "." rest) = t :: split "." rest.
Proof.
  induction t as [|a t IH]; [reflexivity|].
  cbn [contains_char]. intros H.
  apply orb_false_iff in H as [Ha Ht].
  change (String a t +:+ String "." rest) with (String a (t +:+ String "." rest)).
  cbn [split]. rewrite Ha, (IH Ht). reflexivity.
Qed.

Lemma split_join (toks : list string) :
  toks <> [] ->
  forallb (fun t => negb (contains_char "." t)) toks = true ->
  split "." (join "." toks) = toks.
Proof.
  induction toks as [|t toks IH]; [congruence|].
  intros _ H. cbn [forallb] in H.
  apply andb_true_iff in H as [Ht Hr]. apply negb_true_iff in Ht.
  destruct toks as [|u toks].
  - simpl. now apply split_no_dot.
  - change (join "." (t :: u :: toks))
      with (t +:+ String "." (join "." (u :: toks))).
    rewrite split_app_dot by assumption.
    rewrite IH; [reflexivity | congruence | assumption].
Qed.

Lemma all_digits_has_digit (s : string) :
  is_nonneg_int s = true -> has_digit s = true.
Proof.
  unfold is_nonneg_int. destruct s as [|a s]; [discriminate|].
  simpl. intros H. apply andb_true_iff in H as [H _]. now rewrite H.
Qed.

End StringFacts.

Section PathMatcherFacts.

Import JsString PathUtils SpecPathMatcher PathNotions.

Lemma matches_from_false (refPath : list string) :
  forall (index : nat) (dataPath : path),
    matches_from index refPath dataPath false = false.
Proof.
  induction refPath as [|t ts IH]; intros index dataPath; simpl;
    [reflexivity | apply IH].
Qed.

Lemma matches_from_all_match (refPath : list string) :
  forall (seen rest : path) (memo : bool),
    matches_from (length seen) refPath (seen ++ rest) memo
    = memo && all_match refPath rest.
Proof.
  induction refPath as [|t ts IH]; intros seen rest memo.
  - simpl. now rewrite andb_true_r.
  - cbn [matches_from all_match]. destruct rest as [|d ds].
    + rewrite lookup_ge_None_2 by (rewrite length_app; simpl; lia).
      rewrite !andb_false_r. apply matches_from_false.
    + rewrite list_lookup_middle by reflexivity.
      specialize (IH (seen ++ [d]) ds (memo && token_matches t d)).
      rewrite length_app, Nat.add_1_r, <- app_assoc in IH.
      simpl in IH. rewrite IH. now rewrite andb_assoc.
Qed.

Lemma matches_all_match (refPath : list string) (dataPath : path) :
  matches refPath dataPath
  = Nat.eqb (length refPath) (length dataPath) && all_match refPath dataPath.
Proof.
  unfold matches. f_equal.
  exact (matches_from_all_match refPath [] dataPath true).
Qed.

(** Every path the specification's rule accepts is accepted by the code. *)
Lemma spec_matches_matches (pattern : list string) :
  forall dataPath : path,
    spec_matches pattern dataPath = true -> matches pattern dataPath = true.
Proof.
  intros dataPath H. rewrite matches_all_match.
  revert dataPath H.
  induction pattern as [|t ts IH]; intros [|d ds] H; simpl in *;
    try discriminate; [reflexivity|].
  apply andb_true_iff in H as [Ht Hr].
  specialize (IH ds Hr). apply andb_true_iff in IH as [Hl Ha].
  rewrite Hl, Ha. simpl. rewrite andb_true_r.
  unfold spec_token_matches in Ht. unfold token_matches.
  apply orb_true_iff in Ht as [Ht|Ht]; [now rewrite Ht|].
  apply andb_true_iff in Ht as [Hs Hi].
  rewrite Hs, (all_digits_has_digit _ Hi). apply orb_true_r.
Qed.

End PathMatcherFacts.

Section PathRoundTrip.

Import JsString PathUtils PathNotions.

Lemma fold_pattern (p : path) :
  forall memo : string,
    fold_left (fun memo prop => memo +:+ "." +:+ pattern_token prop) p memo
    = memo +:+ dotted (map pattern_token p).
Proof.
  induction p as [|t p IH]; intros memo; simpl.
  - now rewrite append_nil_r.
  - rewrite IH. rewrite append_assoc. reflexivity.
Qed.

Lemma dotted_snoc (toks : list string) (t : string) :
  dotted (toks ++ [t]) = dotted toks +:+ String "." t.
Proof.
  induction toks as [|u toks IH]; cbn [dotted app].
  - now rewrite append_nil_r.
  - rewrite IH.
    change (String "." (u +:+ dotted toks) +:+ String "." t)
      with (String "." ((u +:+ dotted toks) +:+ String "." t)).
    now rewrite append_assoc.
Qed.

Lemma dotted_join (toks : list string) :
  toks <> [] -> dotted toks = String "." (join "." toks).
Proof.
  induction toks as [|t toks IH]; [congruence|]. intros _.
  destruct toks as [|u toks].
  - cbn [dotted join]. now rewrite append_nil_r.
  - change (dotted (t :: u :: toks)) with (String "." (t +:+ dotted (u :: toks))).
    rewrite IH by congruence. reflexivity.
Qed.

Lemma pattern_token_no_dot (p : path) :
  forallb token_ok p = true ->
  forallb (fun t => negb (contains_char "." t)) (map pattern_token p) = true.
Proof.
  induction p as [|t p IH]; [reflexivity|]. cbn [forallb map].
  intros H. apply andb_true_iff in H as [Ht Hp]. rewrite (IH Hp), andb_true_r.
  unfold token_ok in Ht. apply andb_true_iff in Ht as [Hd _].
  unfold pattern_token. destruct (negb (isNaN t)); [reflexivity | exact Hd].
Qed.

Lemma pattern_tokens_match (p : path) :
  forallb token_ok p = true -> all_match (map pattern_token p) p = true.
Proof.
  induction p as [|t p IH]; [reflexivity|]. cbn [forallb map all_match].
  intros H. apply andb_true_iff in H as [Ht Hp]. rewrite (IH Hp), andb_true_r.
  unfold token_ok in Ht. apply andb_true_iff in Ht as [_ Hk].
  unfold pattern_token, token_matches.
  destruct (isNaN t) eqn:E; simpl in *.
  - now rewrite String.eqb_refl.
  - rewrite Hk. apply orb_true_r.
Qed.

Lemma remove_first_prefix (s : string) :
  remove_first "$." ("$" +:+ String "." s) = s.
Proof. destruct s; reflexivity. Qed.

Lemma ref_path_of_keyed_path (p : path) :
  forallb token_ok p = true -> final_key p = true ->
  refPathArr (getRefPathForDataPath p) = map pattern_token p.
Proof.
  intros Hok Hfin. unfold getRefPathForDataPath, refPathArr.
  change (fold_left _ p "$")
    with (fold_left (fun memo prop => memo +:+ "." +:+ pattern_token prop) p "$").
  rewrite fold_pattern.
  unfold final_key in Hfin.
  destruct (last p) as [t|] eqn:El; [|discriminate].
  apply last_Some in El as [init ->].
  apply andb_true_iff in Hfin as [Hnan Hstar].
  assert (Ht : pattern_token t = t) by (unfold pattern_token; now rewrite Hnan).
  assert (Hdot : contains_char "." t = false).
  { rewrite forallb_app in Hok. apply andb_true_iff in Hok as [_ Hok].
    cbn in Hok. rewrite andb_true_r in Hok. unfold token_ok in Hok.
    apply andb_true_iff in Hok as [Hok _]. now apply negb_true_iff in Hok. }
  assert (Hstrip :
    strip_trailing_dot_star ("$" +:+ dotted (map pattern_token (init ++ [t])))
    = "$" +:+ dotted (map pattern_token (init ++ [t]))).
  { rewrite map_app. cbn [map]. rewrite Ht, dotted_snoc.
    rewrite <- append_assoc, strip_app_dot. f_equal.
    cbn [strip_trailing_dot_star].
    destruct (String.eqb (String "." t) ".*") eqn:E.
    - apply String.eqb_eq in E. injection E as ->. discriminate Hstar.
    - now rewrite strip_no_dot. }
  rewrite Hstrip.
  rewrite dotted_join by (rewrite map_app; destruct (map pattern_token init); discriminate).
  rewrite remove_first_prefix.
  apply split_join.
  - rewrite map_app. destruct (map pattern_token init); discriminate.
  - now apply pattern_token_no_dot.
Qed.

End PathRoundTrip.

Section PathMatcherClaims.

Import JsString PathUtils SpecPathMatcher PathNotions.

(** What [getDataPathsForRefPath] returns: the traversal paths of the
    same length as the pattern whose tokens pass [token_matches]. *)
Lemma getDataPathsForRefPath_spec (p : string) (data : value) (dp : path) :
  dp ∈ getDataPathsForRefPath p data
  <-> dp ∈ Traverse.paths data
      /\ length (refPathArr p) = length dp
      /\ all_match (refPathArr p) dp = true.
Proof.
  unfold getDataPathsForRefPath. rewrite list_elem_of_filter.
  rewrite matches_all_match, andb_true_iff, Nat.eqb_eq. tauto.
Qed.

(** C1 (code at the failing input): for the pattern [$.a.*] and the tree
    [{a: {x1: 5}}], [getDataPathsForRefPath] returns the path [a.x1],
    whose token in the [*] position is not a non-negative integer; the
    rule of the specification returns no path. *)
Theorem C1_wildcard_accepts_key_holding_a_digit :
  getDataPathsForRefPath "$.a.*" Examples.keyed_group = [["a"; "x1"]]
  /\ is_nonneg_int "x1" = false
  /\ spec_matchPaths "$.a.*" Examples.keyed_group = [].
Proof. repeat split; reflexivity. Qed.

(** C3 (counterexample): the path [a.0] exists in [{a: [1]}] and its only
    array token is a non-negative integer, yet it is not among the paths
    matched by its own pattern, which is [$.a]. *)
Lemma C3_trailing_index_is_dropped :
  ["a"; "0"] ∈ Traverse.paths Examples.one_item
  /\ is_nonneg_int "0" = true
  /\ getRefPathForDataPath ["a"; "0"] = "$.a"
  /\ ~ (["a"; "0"] ∈ getDataPathsForRefPath
                       (getRefPathForDataPath ["a"; "0"]) Examples.one_item).
Proof.
  repeat split.
  - apply (bool_decide_unpack _). vm_compute. exact I.
  - intros H. apply (bool_decide_pack _) in H. vm_compute in H. exact H.
Qed.

(** C3 (amended): a path that exists in the tree, whose tokens hold no
    dot and are each a key or hold a digit (as every array index does),
    and whose final token is a key other than [*], is among the paths
    matched by its own pattern. *)
Theorem C3_round_trip_of_keyed_path (p : path) (tree : value) :
  p ∈ Traverse.paths tree ->
  forallb token_ok p = true ->
  final_key p = true ->
  p ∈ getDataPathsForRefPath (getRefPathForDataPath p) tree.
Proof.
  intros Hin Hok Hfin. apply getDataPathsForRefPath_spec.
  rewrite (ref_path_of_keyed_path p Hok Hfin).
  repeat split.
  - exact Hin.
  - apply length_map.
  - now apply pattern_tokens_match.
Qed.

Lemma C3_round_trip_of_keyed_path_witness :
  ["a"; "0"; "b"] ∈ getDataPathsForRefPath
                      (getRefPathForDataPath ["a"; "0"; "b"]) Examples.one_group.
Proof.
  apply (C3_round_trip_of_keyed_path ["a"; "0"; "b"] Examples.one_group).
  - apply (bool_decide_unpack _). vm_compute. exact I.
  - reflexivity.
  - reflexivity.
Defined.

End PathMatcherClaims.

Section ResolverClaims.

Import Resolver.

(** C2 (counterexample): with no target path, [$value] does not resolve
    to [undefined]. *)
Lemma C2_value_without_target_is_not_undefined :
  result (resolveString "$value" (VObj []) TUndef) <> Some VUndef.
Proof. discriminate. Qed.

(** C2 (amended): for every data tree and every absent target path,
    resolving [$value] logs the warning once, does not throw, and yields
    the string [$value] itself; the same holds through [resolve] for
    every context with no capability under the key [undefined]. *)
Theorem C2_value_without_target (data : value) (t : target) :
  target_truthy t = false ->
  resolveString "$value" data t = ([value_warning], Some (VStr "$value"))
  /\ forall ctx : context,
       ctx "undefined" = None ->
       resolve ctx data t (VStr "$value")
       = ([value_warning], Some (VStr "$value")).
Proof.
  intros Ht.
  assert (H : resolveString "$value" data t
              = ([value_warning], Some (VStr "$value"))).
  { unfold resolveString, value_sentinel. rewrite Ht. reflexivity. }
  split; [exact H|].
  intros ctx Hc. cbn. rewrite Hc. exact H.
Qed.

Lemma C2_value_without_target_witness :
  resolveString "$value" Examples.one_item TUndef
  = ([value_warning], Some (VStr "$value")).
Proof.
  apply (C2_value_without_target Examples.one_item TUndef). reflexivity.
Defined.

End ResolverClaims.

(* ===================================================================== *)
(** ** The store *)
(* ===================================================================== *)

Section ValueInduction.

Variable P : value -> Prop.
Hypothesis on_undef : P VUndef.
Hypothesis on_null : P VNull.
Hypothesis on_bool : forall b, P (VBool b).
Hypothesis on_num : forall n, P (VNum n).
Hypothesis on_str : forall s, P (VStr s).
Hypothesis on_arr : forall items, Forall P items -> P (VArr items).
Hypothesis on_obj :
  forall fields, Forall (fun kv => P (snd kv)) fields -> P (VObj fields).

Fixpoint value_induction (v : value) : P v :=
  match v with
  | VUndef => on_undef
  | VNull => on_null
  | VBool b => on_bool b
  | VNum n => on_num n
  | VStr s => on_str s
  | VArr items =>
      on_arr items
        ((fix go (l : list value) : Forall P l :=
            match l with
            | [] => List.Forall_nil P
            | x :: r => @List.Forall_cons _ P x r (value_induction x) (go r)
            end) items)
  | VObj fields =>
      on_obj fields
        ((fix go (l : list (string * value))
            : Forall (fun kv => P (snd kv)) l :=
            match l with
            | [] => List.Forall_nil _
            | (k, x) :: r =>
                @List.Forall_cons _ (fun kv => P (snd kv)) (k, x) r
                  (value_induction x) (go r)
            end) fields)
  end.

End ValueInduction.

Section StoreFacts.

Import Heap StoreNotions.

Lemma extends_refl (st : store) : extends st st.
Proof. intros l c H. exact H. Qed.

Lemma extends_app (st ext : store) : extends st (st ++ ext).
Proof. intros l c H. now apply lookup_app_l_Some. Qed.

Lemma reify_mono (fuel : nat) :
  forall (fuel' : nat) (st st' : store) (h : hval) (v : value),
    fuel <= fuel' -> extends st st' ->
    reify fuel st h = Some v -> reify fuel' st' h = Some v.
Proof.
  induction fuel as [|f IH]; intros fuel' st st' h v Hle Hext H.
  - destruct h; simpl in H; try discriminate; destruct fuel'; exact H.
  - destruct fuel' as [|f']; [lia|].
    destruct h; try exact H.
    simpl in H |- *.
    destruct (st !! l) as [c|] eqn:E; [|discriminate].
    rewrite (Hext _ _ E). clear E.
    assert (Hf : f <= f') by lia.
    destruct c as [items|fields].
    + revert v H. induction items as [|x r IHr]; intros v H; [exact H|].
      simpl in H |- *.
      destruct (reify f st x) as [y|] eqn:Ex; [|discriminate].
      rewrite (IH f' st st' x y Hf Hext Ex).
      match type of H with
      | context [match ?g with Some _ => _ | None => _ end] =>
          destruct g as [ys|] eqn:Eg; [|discriminate]
      end.
      specialize (IHr (VArr ys) eq_refl).
      match type of IHr with
      | option_map _ ?g' = _ => destruct g' as [ys'|]; [|discriminate]
      end.
      simpl in IHr. injection IHr as ->. exact H.
    + revert v H. induction fields as [|[k x] r IHr]; intros v H; [exact H|].
      simpl in H |- *.
      destruct (reify f st x) as [y|] eqn:Ex; [|discriminate].
      rewrite (IH f' st st' x y Hf Hext Ex).
      match type of H with
      | context [match ?g with Some _ => _ | None => _ end] =>
          destruct g as [ys|] eqn:Eg; [|discriminate]
      end.
      specialize (IHr (VObj ys) eq_refl).
      match type of IHr with
      | option_map _ ?g' = _ => destruct g' as [ys'|]; [|discriminate]
      end.
      simpl in IHr. injection IHr as ->. exact H.
Qed.

(** What the caller could read before, it reads after the store has
    grown. *)
Lemma read_extends (st st' : store) (h : hval) (v : value) :
  extends st st' -> length st <= length st' ->
  read st h = Some v -> read st' h = Some v.
Proof.
  intros Hext Hlen. unfold read. apply reify_mono; [lia | exact Hext].
Qed.

End StoreFacts.

Section StoreGrowth.

Import Heap StoreNotions.

Lemma above_le (n m : nat) (h : hval) : n <= m -> above m h -> above n h.
Proof. destruct h; simpl; auto. lia. Qed.

Lemma cell_above_le (n m : nat) (c : cell) :
  n <= m -> cell_above m c -> cell_above n c.
Proof.
  intros Hle. destruct c; simpl; intros H;
    (eapply Forall_impl; [exact H|]); intros x; now apply above_le.
Qed.

(** A copy is built of fresh cells only, and points only to them. *)
Lemma alloc_grows (v : value) :
  forall (st : store) (lo : nat),
    lo <= length st ->
    exists ext : store,
      fst (alloc v st) = st ++ ext
      /\ Forall (cell_above lo) ext
      /\ above lo (snd (alloc v st)).
Proof.
  induction v as [| | | | |items IH|fields IH] using value_induction;
    intros st lo Hn;
    try (exists []; simpl; rewrite app_nil_r; repeat split; constructor).
  - simpl.
    match goal with
    | |- context [let '(_, _) := ?g items st in _] => set (go := g)
    end.
    assert (G : exists ext, fst (go items st) = st ++ ext
                            /\ Forall (cell_above lo) ext
                            /\ Forall (above lo) (snd (go items st))).
    { clear -IH Hn. revert st Hn.
      induction items as [|x r IHr]; intros st Hn.
      - exists []. simpl. rewrite app_nil_r. repeat split; constructor.
      - apply Forall_cons in IH as [Hx Hr].
        destruct (Hx st lo Hn) as (e1 & E1 & F1 & A1).
        simpl. destruct (alloc x st) as [st1 h] eqn:Ea. simpl in E1, A1.
        assert (Hn1 : lo <= length st1) by (subst st1; rewrite length_app; lia).
        destruct (IHr Hr st1 Hn1) as (e2 & E2 & F2 & A2).
        destruct (go r st1) as [st2 hs] eqn:Eg. simpl in E2, A2. simpl.
        exists (e1 ++ e2). subst. rewrite app_assoc.
        repeat split; [now apply Forall_app | now constructor]. }
    destruct G as (ext & E & F & A).
    destruct (go items st) as [st' hs]. simpl in E, A. subst st'. simpl.
    exists (ext ++ [CArr hs]). rewrite app_assoc. repeat split.
    + apply Forall_app. split; [exact F|]. constructor; [exact A | constructor].
    + rewrite length_app. lia.
  - simpl.
    match goal with
    | |- context [let '(_, _) := ?g fields st in _] => set (go := g)
    end.
    assert (G : exists ext, fst (go fields st) = st ++ ext
                            /\ Forall (cell_above lo) ext
                            /\ Forall (fun kv => above lo (snd kv))
                                 (snd (go fields st))).
    { clear -IH Hn. revert st Hn.
      induction fields as [|[k x] r IHr]; intros st Hn.
      - exists []. simpl. rewrite app_nil_r. repeat split; constructor.
      - apply Forall_cons in IH as [Hx Hr]. simpl in Hx.
        destruct (Hx st lo Hn) as (e1 & E1 & F1 & A1).
        simpl. destruct (alloc x st) as [st1 h] eqn:Ea. simpl in E1, A1.
        assert (Hn1 : lo <= length st1) by (subst st1; rewrite length_app; lia).
        destruct (IHr Hr st1 Hn1) as (e2 & E2 & F2 & A2).
        destruct (go r st1) as [st2 hs] eqn:Eg. simpl in E2, A2. simpl.
        exists (e1 ++ e2). subst. rewrite app_assoc.
        repeat split; [now apply Forall_app | now constructor]. }
    destruct G as (ext & E & F & A).
    destruct (go fields st) as [st' hs]. simpl in E, A. subst st'. simpl.
    exists (ext ++ [CObj hs]). rewrite app_assoc. repeat split.
    + apply Forall_app. split; [exact F|]. constructor; [exact A | constructor].
    + rewrite length_app. lia.
Qed.

End StoreGrowth.

Section WritesStayInTheCopy.

Import Heap StoreNotions.

Variable st0 : store.

Lemma grown_from_self : grown_from st0 st0.
Proof. exists []. rewrite app_nil_r. split; [reflexivity | constructor]. Qed.

Lemma grown_extends (st : store) : grown_from st0 st -> extends st0 st.
Proof. intros (ext & -> & _). apply extends_app. Qed.

Lemma grown_length (st : store) : grown_from st0 st -> length st0 <= length st.
Proof. intros (ext & -> & _). rewrite length_app. lia. Qed.

Lemma grown_lookup (st : store) (l : loc) (c : cell) :
  grown_from st0 st -> length st0 <= l -> st !! l = Some c ->
  cell_above (length st0) c.
Proof.
  intros (ext & -> & F) Hl H.
  rewrite lookup_app_r in H by exact Hl.
  exact (Forall_lookup_1 _ _ _ _ F H).
Qed.

Lemma assign_above (n : nat) (k : string) (v : hval)
  (fields : list (string * hval)) :
  above n v -> Forall (fun kv => above n (snd kv)) fields ->
  Forall (fun kv => above n (snd kv)) (Js.assign k v fields).
Proof.
  intros Hv. induction fields as [|[k' y] r IH]; intros F; simpl.
  - constructor; [exact Hv | constructor].
  - apply Forall_cons in F as [Hy Hr].
    destruct (String.eqb k' k); constructor; auto.
Qed.

Lemma cell_assign_above (n : nat) (key : string) (v : hval) (c : cell) :
  above n v -> cell_above n c -> cell_above n (cell_assign key v c).
Proof.
  intros Hv Hc. destruct c as [items|fields]; simpl.
  - destruct (JsString.to_index key) as [i|]; [|exact Hc].
    destruct (i <? length items)%nat; simpl.
    + now apply Forall_insert.
    + apply Forall_app. split; [exact Hc|].
      apply Forall_app. split; [|constructor; [exact Hv | constructor]].
      apply Forall_replicate. exact I.
  - now apply assign_above.
Qed.

Lemma assoc_above (n : nat) (key : string) (fields : list (string * hval)) :
  Forall (fun kv => above n (snd kv)) fields ->
  above n (default HUndef (Js.assoc key fields)).
Proof.
  induction fields as [|[k' y] r IH]; intros F; simpl; [exact I|].
  apply Forall_cons in F as [Hy Hr].
  destruct (String.eqb k' key); [exact Hy | now apply IH].
Qed.

Lemma cell_prop_above (n : nat) (c : cell) (key : string) :
  cell_above n c -> above n (cell_prop c key).
Proof.
  intros Hc. destruct c as [items|fields]; simpl.
  - destruct (JsString.to_index key) as [i|]; [|exact I].
    destruct (items !! i) as [h|] eqn:E; simpl; [|exact I].
    exact (Forall_lookup_1 _ _ _ _ Hc E).
  - now apply assoc_above.
Qed.

Lemma hprop_above (st : store) (l : loc) (key : string) :
  grown_from st0 st -> length st0 <= l ->
  above (length st0) (hprop st l key).
Proof.
  intros G Hl. unfold hprop.
  destruct (st !! l) as [c|] eqn:E; [|exact I].
  apply cell_prop_above. exact (grown_lookup st l c G Hl E).
Qed.

Lemma hassign_grown (st : store) (l : loc) (key : string) (v : hval) :
  grown_from st0 st -> length st0 <= l -> above (length st0) v ->
  grown_from st0 (hassign st l key v).
Proof.
  intros G Hl Hv. unfold hassign.
  destruct (st !! l) as [c|] eqn:E; [|exact G].
  pose proof (grown_lookup st l c G Hl E) as Hc.
  destruct G as (ext & -> & F).
  exists (<[l - length st0 := cell_assign key v c]> ext). split.
  - now rewrite insert_app_r_alt.
  - apply Forall_insert; [exact F | now apply cell_assign_above].
Qed.

Lemma push_grown (st : store) (c : cell) :
  grown_from st0 st -> cell_above (length st0) c ->
  grown_from st0 (st ++ [c]).
Proof.
  intros (ext & -> & F) Hc. exists (ext ++ [c]). split.
  - now rewrite app_assoc.
  - apply Forall_app. split; [exact F | constructor; [exact Hc | constructor]].
Qed.

Lemma baseSet_grown (p : path) :
  forall (st : store) (nested : loc) (v : hval),
    grown_from st0 st -> length st0 <= nested -> above (length st0) v ->
    grown_from st0 (baseSet st nested p v).
Proof.
  induction p as [|key rest IH]; intros st nested v G Hn Hv; [exact G|].
  cbn [baseSet]. destruct (unsafe_key key); [exact G|].
  destruct rest as [|next rest'].
  - now apply hassign_grown.
  - pose proof (hprop_above st nested key G Hn) as Hp.
    destruct (hprop st nested key) eqn:E;
      try (apply IH; [ apply hassign_grown;
                       [ apply push_grown; [exact G|];
                         destruct (isIndex next); constructor
                       | exact Hn
                       | simpl; now apply grown_length ]
                     | now apply grown_length
                     | exact Hv ]).
    apply IH; [exact G | exact Hp | exact Hv].
Qed.

(** A write through a reference into the copy leaves the cells of the
    original store as they were. *)
Lemma set_grown (st : store) (object : hval) (p : path) (v : hval) :
  grown_from st0 st -> above (length st0) object -> above (length st0) v ->
  grown_from st0 (set st object p v).
Proof.
  intros G Ho Hv. destruct object; try exact G.
  now apply baseSet_grown.
Qed.

End WritesStayInTheCopy.

(* ===================================================================== *)
(** ** Pruning *)
(* ===================================================================== *)

Section StoreComputations.

Import Heap StoreNotions.

Context {A B : Type}.
Variable I : store -> Prop.

Lemma keeps_ret (a : A) : keeps I (retS a).
Proof. intros st H. exact H. Qed.

Lemma keeps_throw : keeps I (@throwS A).
Proof. intros st H. exact H. Qed.

Lemma keeps_lift (m : W A) : keeps I (liftW m).
Proof. intros st H. exact H. Qed.

Lemma keeps_read (h : hval) : keeps I (readS h).
Proof. intros st H. exact H. Qed.

Lemma keeps_modify (f : store -> store) :
  (forall st, I st -> I (f st)) -> keeps I (modifyS f).
Proof. intros Hf st H. apply Hf, H. Qed.

Lemma keeps_bind (m : SW A) (k : A -> SW B) :
  keeps I m -> (forall a, keeps I (k a)) -> keeps I (bindS m k).
Proof.
  intros Hm Hk st H. unfold bindS, final_store.
  specialize (Hm st H). unfold final_store in Hm.
  destruct (m st) as [[l st1] [a|]]; simpl in *; [|exact Hm].
  specialize (Hk a st1 Hm). unfold final_store in Hk.
  destruct (k a st1) as [[l' st2] r]. exact Hk.
Qed.

Lemma bind_read (h : hval) (t : value) (k : value -> SW B) (st : store) :
  read st h = Some t -> bindS (readS h) k st = k t st.
Proof.
  intros H. unfold bindS, readS. rewrite H.
  destruct (k t st) as [[l' st2] r]. reflexivity.
Qed.

End StoreComputations.

Section ForEachFacts.

Import Heap StoreNotions.

Context {A : Type}.
Variable I : store -> Prop.

Lemma keeps_forEach (f : A -> SW unit) (l : list A) :
  (forall x, keeps I (f x)) -> keeps I (forEachS f l).
Proof.
  intros Hf. induction l as [|x r IH]; simpl.
  - apply keeps_ret.
  - apply keeps_bind; [apply Hf | intros _; exact IH].
Qed.

(** Two loop bodies that agree on every store with the property run the
    same loop. *)
Lemma forEach_agree (f g : A -> SW unit) (l : list A) :
  (forall x, keeps I (g x)) ->
  (forall x st, I st -> f x st = g x st) ->
  forall st, I st -> forEachS f l st = forEachS g l st.
Proof.
  intros Hg Hfg. induction l as [|x r IH]; intros st H; [reflexivity|].
  simpl. unfold bindS. rewrite (Hfg x st H).
  pose proof (Hg x st H) as H1. unfold final_store in H1.
  destruct (g x st) as [[lg st1] [u|]]; simpl in H1; [|reflexivity].
  now rewrite (IH st1 H1).
Qed.

End ForEachFacts.

Section PruningFacts.

Import Heap StoreNotions Engine.

Variable cfg : config.
Variable ctx : context.
Variable st0 : store.
Variable data result : hval.
Hypothesis result_above : above (length st0) result.

Lemma clear_keeps (p : path) :
  keeps (grown_from st0) (modifyS (fun st => set st result p HUndef)).
Proof.
  apply keeps_modify. intros st G.
  apply set_grown; [exact G | exact result_above | exact I].
Qed.

Lemma prune_path_on_keeps (tree : value) (d : string) (p : path) :
  keeps (grown_from st0) (prune_path_on tree cfg ctx result d p).
Proof.
  unfold prune_path_on. apply keeps_bind; [apply keeps_lift|].
  intros met. destruct (Js.truthy met); [apply keeps_ret | apply clear_keeps].
Qed.

Lemma prune_dep_on_keeps (tree : value) (dep : value) :
  keeps (grown_from st0) (prune_dep_on tree cfg ctx result dep).
Proof.
  destruct dep; try apply keeps_throw.
  apply keeps_forEach. intros p. apply prune_path_on_keeps.
Qed.

Variable tree0 : value.
Hypothesis read_data : read st0 data = Some tree0.

(** However far the pass has got, the caller's reference still shows the
    tree it showed on entry. *)
Lemma read_data_grown (st : store) :
  grown_from st0 st -> read st data = Some tree0.
Proof.
  intros G. apply (read_extends st0 st).
  - now apply grown_extends.
  - now apply grown_length.
  - exact read_data.
Qed.

Lemma prune_path_snapshot (d : string) (p : path) (st : store) :
  grown_from st0 st ->
  prune_path cfg ctx data result d p st
  = prune_path_on tree0 cfg ctx result d p st.
Proof.
  intros G. unfold prune_path.
  rewrite (bind_read data tree0) by now apply read_data_grown.
  reflexivity.
Qed.

Lemma prune_dep_snapshot (dep : value) (st : store) :
  grown_from st0 st ->
  prune_dep cfg ctx data result dep st
  = prune_dep_on tree0 cfg ctx result dep st.
Proof.
  intros G. destruct dep; try reflexivity.
  unfold prune_dep, prune_dep_on.
  rewrite (bind_read data tree0) by now apply read_data_grown.
  apply (forEach_agree (grown_from st0)); [| |exact G].
  - intros p. apply prune_path_on_keeps.
  - intros p st' G'. now apply prune_path_snapshot.
Qed.

Lemma prune_deps_snapshot (depOrder : list value) (st : store) :
  grown_from st0 st ->
  forEachS (prune_dep cfg ctx data result) depOrder st
  = forEachS (prune_dep_on tree0 cfg ctx result) depOrder st.
Proof.
  apply (forEach_agree (grown_from st0)).
  - intros dep. apply prune_dep_on_keeps.
  - intros dep st' G'. now apply prune_dep_snapshot.
Qed.

End PruningFacts.

Section PruningClaims.

Import Heap StoreNotions Engine.

Lemma bind_final {A B : Type} (I : store -> Prop) (m : SW A) (k : A -> SW B)
  (st : store) :
  I (final_store (m st)) ->
  (forall a, outcome (m st) = Some a -> keeps I (k a)) ->
  I (final_store (bindS m k st)).
Proof.
  intros Hm Hk. unfold bindS, final_store, outcome in *.
  destruct (m st) as [[l st1] [a|]]; simpl in *; [|exact Hm].
  specialize (Hk a eq_refl st1 Hm). unfold final_store in Hk.
  destruct (k a st1) as [[l' st2] r]. exact Hk.
Qed.

(** The pruning pass only adds cells to the store it was given. *)
Lemma pruneData_grows (data : hval) (cfg : config) (depOrder : list value)
  (ctx : context) (st0 : store) :
  grown_from st0 (final_store (pruneData data cfg depOrder ctx st0)).
Proof.
  unfold pruneData.
  assert (Hclone :
    grown_from st0 (final_store (cloneDeepS data st0))
    /\ forall result, outcome (cloneDeepS data st0) = Some result ->
                      above (length st0) result).
  { unfold cloneDeepS, cloneDeep.
    destruct (read st0 data) as [tree|];
      [|split; [apply grown_from_self | discriminate]].
    destruct (alloc_grows tree st0 (length st0) (le_n _)) as (ext & E & F & Ab).
    destruct (alloc tree st0) as [st1 result]. simpl in E, Ab.
    split.
    - exists ext. now split.
    - intros r [= <-]. exact Ab. }
  destruct Hclone as [G1 Hres].
  apply (bind_final (grown_from st0)); [exact G1|].
  intros result Hr. specialize (Hres result Hr).
  apply keeps_bind; [|intros _; apply keeps_ret].
  apply keeps_forEach. intros dep.
  destruct dep; try apply keeps_throw.
  unfold prune_dep. apply keeps_bind; [apply keeps_read|]. intros t.
  apply keeps_forEach. intros p. unfold prune_path.
  apply keeps_bind; [apply keeps_read|]. intros t'.
  apply keeps_bind; [apply keeps_lift|]. intros met.
  destruct (Js.truthy met); [apply keeps_ret | now apply clear_keeps].
Qed.

(** C4: the pruning pass is the pass that takes every decision on the
    snapshot of the input read on entry: the paths a node's pattern
    matches and the values its preconditions see are those of the
    unmodified tree, whatever has been cleared so far; only the clearing
    writes go to the working copy.  (When the input cannot be read as a
    tree, [cloneDeep] fails and nothing is written.) *)
Theorem C4_pruning_decides_on_the_snapshot (data : hval) (cfg : config)
  (depOrder : list value) (ctx : context) (st0 : store) :
  pruneData data cfg depOrder ctx st0
  = match read st0 data with
    | Some tree0 => pruneData_on tree0 cfg depOrder ctx st0
    | None => throwS st0
    end.
Proof.
  unfold pruneData, pruneData_on. unfold bindS at 1 3.
  unfold cloneDeepS, cloneDeep, modifyS_ret.
  destruct (read st0 data) as [tree0|] eqn:R; [|reflexivity].
  destruct (alloc_grows tree0 st0 (length st0) (le_n _)) as (ext & E & F & Ab).
  destruct (alloc tree0 st0) as [st1 result]. simpl in E, Ab. simpl.
  assert (G1 : grown_from st0 st1) by (exists ext; now split).
  unfold bindS.
  rewrite (prune_deps_snapshot cfg ctx st0 data result Ab tree0 R depOrder st1 G1).
  reflexivity.
Qed.

(** C8: [getWorkflowState] leaves every cell of the caller's store as it
    was, whether it returns or throws: the store after the call is the
    store before it followed by fresh cells, and the tree read through
    the caller's reference is the same before and after. *)
Theorem C8_getWorkflowState_leaves_the_input
  (toposort : list (value * value) -> option (list value))
  (e : engine) (data : hval) (st0 : store) :
  let st' := final_store (getWorkflowState toposort e data st0) in
  take (length st0) st' = st0
  /\ match read st0 data with
     | Some tree => read st' data = Some tree
     | None => True
     end.
Proof.
  intros st'.
  assert (G : grown_from st0 st').
  { subst st'. unfold getWorkflowState.
    apply (bind_final (grown_from st0)); [apply pruneData_grows|].
    intros pruned _. apply keeps_bind; [apply keeps_read|]. intros prunedData.
    apply keeps_bind; [apply keeps_lift|]. intros sectionStates.
    apply keeps_bind; [apply keeps_lift|]. intros derivedValues.
    apply keeps_bind; [apply keeps_lift|]. intros edgeStates.
    apply keeps_ret. }
  split.
  - destruct G as (ext & -> & _). now rewrite take_app_length.
  - destruct (read st0 data) as [tree|] eqn:R; [|exact I].
    apply (read_extends st0 st'); [| |exact R].
    + now apply grown_extends.
    + now apply grown_length.
Qed.

End PruningClaims.

Example ex_cascade :
Cascade.pruned = Some (VObj [("flag", VBool false); ("a", VObj [("b", VUndef)])]).
Proof. vm_compute. reflexivity. Qed.

Section ClearingFacts.

Import Heap ClearingNotions.

Lemma baseSet_locate (p : path) :
  forall (st : store) (nested l : loc) (key : string) (v : hval),
    locate st nested p = Some (l, key) -> safe_path p = true ->
    baseSet st nested p v = hassign st l key v.
Proof.
  induction p as [|k rest IH]; intros st nested l key v Hloc Hsafe;
    [discriminate|].
  unfold safe_path in Hsafe. cbn [forallb] in Hsafe.
  apply andb_true_iff in Hsafe as [Hk Hrest]. apply negb_true_iff in Hk.
  cbn [baseSet locate] in *. rewrite Hk.
  destruct rest as [|next rest'].
  - now injection Hloc as -> ->.
  - destruct (hprop st nested k); try discriminate.
    now apply IH.
Qed.

Lemma to_index_canonical (s : string) (i : nat) :
  JsString.to_index s = Some i -> s = JsString.of_nat i.
Proof.
  unfold JsString.to_index.
  destruct (NilZero.uint_of_string s) as [u|]; [|discriminate].
  cbv zeta.
  destruct (String.eqb (JsString.of_nat (Nat.of_uint u)) s) eqn:E;
    [|discriminate].
  intros [= <-]. apply String.eqb_eq in E. now symmetry.
Qed.

Lemma assign_assoc_eq {A : Type} (k : string) (v : A) (l : list (string * A)) :
  Js.assoc k (Js.assign k v l) = Some v.
Proof.
  induction l as [|[k' y] r IH]; simpl.
  - now rewrite String.eqb_refl.
  - destruct (String.eqb k' k) eqn:E; simpl; rewrite E; [reflexivity | exact IH].
Qed.

Lemma assign_assoc_ne {A : Type} (k k' : string) (v : A) (l : list (string * A)) :
  k' <> k -> Js.assoc k' (Js.assign k v l) = Js.assoc k' l.
Proof.
  intros Hne. induction l as [|[k1 y] r IH]; simpl.
  - destruct (String.eqb k k') eqn:E; [|reflexivity].
    apply String.eqb_eq in E. congruence.
  - destruct (String.eqb k1 k) eqn:E; simpl.
    + apply String.eqb_eq in E. subst k1.
      destruct (String.eqb k k') eqn:E'; [|reflexivity].
      apply String.eqb_eq in E'. congruence.
    + now rewrite IH.
Qed.

Lemma assign_keys {A : Type} (k : string) (v : A) (l : list (string * A)) :
  is_Some (Js.assoc k l) -> map fst (Js.assign k v l) = map fst l.
Proof.
  induction l as [|[k' y] r IH]; simpl; intros H.
  - destruct H as [x H]. discriminate.
  - destruct (String.eqb k' k); simpl; [reflexivity | now rewrite IH].
Qed.

(** A write to a slot that is there changes that slot and nothing else
    of the cell. *)
Lemma cell_assign_present (c : cell) (key : string) (v : hval) :
  slot_present c key = true ->
  cell_shape (cell_assign key v c) = cell_shape c
  /\ cell_prop (cell_assign key v c) key = v
  /\ forall k, k <> key -> cell_prop (cell_assign key v c) k = cell_prop c k.
Proof.
  intros Hp. destruct c as [items|fields]; simpl in *.
  - destruct (JsString.to_index key) as [i|] eqn:Ei; [|discriminate].
    rewrite Hp. apply Nat.ltb_lt in Hp. simpl. rewrite Ei.
    repeat split.
    + now rewrite length_insert.
    + now rewrite list_lookup_insert_eq.
    + intros k Hk. destruct (JsString.to_index k) as [j|] eqn:Ej; [|reflexivity].
      rewrite list_lookup_insert_ne; [reflexivity|].
      intros ->. apply Hk.
      rewrite (to_index_canonical _ _ Ei), (to_index_canonical _ _ Ej).
      reflexivity.
  - apply bool_decide_eq_true in Hp. repeat split.
    + f_equal. now apply assign_keys.
    + now rewrite assign_assoc_eq.
    + intros k Hk. now rewrite assign_assoc_ne.
Qed.

(** C10 (code at the failing input): with the dependency order
    [$.flag, $.a, $.a.b] and [flag] false, both [a] and [a.b] are pruned
    from [{flag: false, a: {b: 1, c: 2}}]; the write for [a.b] finds [a]
    already cleared and builds a new object there, so the output is
    [{flag: false, a: {b: undefined}}]: the slot [a] does not hold
    [undefined] and the object around [a.b] has lost its key [c]. *)
Lemma C10_cleared_group_is_rebuilt :
  PathUtils.getDataPathsForRefPath "$.a" Cascade.data = [["a"]]
  /\ PathUtils.getDataPathsForRefPath "$.a.b" Cascade.data = [["a"; "b"]]
  /\ result (Engine.preconditionsMet Cascade.node_a Cascade.data
               Examples.no_functions (TArr ["a"])) = Some (VBool false)
  /\ result (Engine.preconditionsMet Cascade.node_b Cascade.data
               Examples.no_functions (TArr ["a"; "b"])) = Some (VBool false)
  /\ Cascade.pruned
     = Some (VObj [("flag", VBool false); ("a", VObj [("b", VUndef)])])
  /\ match Cascade.pruned with
     | Some out =>
         cleared_in_place Cascade.data out ["a"] = false
         /\ cleared_in_place Cascade.data out ["a"; "b"] = false
     | None => False
     end.
Proof. vm_compute. repeat split; reflexivity. Qed.

(** A clearing write [set(result, path, undefined)] whose
    path is present in the working copy at that moment (every token but
    the last leads to an object, the last is a key of the enclosing object
    or an index within the enclosing array, no token is [__proto__],
    [constructor] or [prototype]) allocates nothing and changes one cell
    only, the enclosing one; that cell keeps its keys in order, or its
    length, and the value of every other slot, and the cleared slot holds
    [undefined]. *)
Lemma clearing_write_in_place (st : store) (root l : loc) (p : path)
  (key : string) (c : cell) :
  locate st root p = Some (l, key) ->
  safe_path p = true ->
  st !! l = Some c ->
  slot_present c key = true ->
  length (set st (HRef root) p HUndef) = length st
  /\ (forall l', l' <> l -> set st (HRef root) p HUndef !! l' = st !! l')
  /\ exists c',
       set st (HRef root) p HUndef !! l = Some c'
       /\ cell_shape c' = cell_shape c
       /\ cell_prop c' key = HUndef
       /\ forall k, k <> key -> cell_prop c' k = cell_prop c k.
Proof.
  intros Hloc Hsafe Hc Hp. cbn [set].
  rewrite (baseSet_locate p st root l key HUndef Hloc Hsafe).
  unfold hassign. rewrite Hc.
  repeat split.
  - apply length_insert.
  - intros l' Hl. now apply list_lookup_insert_ne.
  - exists (cell_assign key HUndef c).
    split; [|now apply cell_assign_present].
    apply list_lookup_insert_eq. now apply lookup_lt_Some in Hc.
Qed.

Lemma clearing_write_in_place_example :
  length (set Cascade.st0 Cascade.root ["a"; "b"] HUndef) = length Cascade.st0.
Proof.
  apply (clearing_write_in_place Cascade.st0 1 0 ["a"; "b"] "b"
           (CObj [("b", HNum 1); ("c", HNum 2)]));
    reflexivity.
Defined.

End ClearingFacts.

(* ===================================================================== *)
(** ** Section validation *)
(* ===================================================================== *)

Example ex_required_precedence :
Engine.section_messages Validation.cfg Validation.data Validation.ctx
  Validation.section "sec"
= ([], Some [Engine.Message "sec.items" (VStr "Required!")]).
Proof. vm_compute. reflexivity. Qed.

Example ex_dotted_keys :
Engine.section_messages Validation.dotted_cfg Validation.dotted_data
  Validation.ctx Validation.plain_section "sec"
= ([], Some [Engine.Message "sec.a.b" (VStr "bad")]).
Proof. vm_compute. reflexivity. Qed.

Section WFacts.

Context {A B : Type}.

Lemma result_bind (m : W A) (k : A -> W B) (b : B) :
  result (bind m k) = Some b ->
  exists a, result m = Some a /\ result (k a) = Some b.
Proof.
  unfold result, bind. destruct m as [l [a|]]; simpl; [|discriminate].
  destruct (k a) as [l' r] eqn:E. simpl. intros ->.
  exists a. now rewrite E.
Qed.

Lemma result_ret {T : Type} (a b : T) : result (ret a) = Some b -> a = b.
Proof. now intros [= ->]. Qed.

End WFacts.

Section FoldFacts.

Context {A B : Type}.


End FoldFacts.

Section ValidationFacts.

Import Engine.


Lemma first_failing_path (ctx : context) (data : value) (p : path)
  (validations : list value) (m : message) :
  result (first_failing ctx data p validations) = Some (Some m) ->
  m_path m = JsString.join "." p.
Proof.
  induction validations as [|v r IH]; cbn [first_failing]; intros H.
  - apply result_ret in H. discriminate.
  - apply result_bind in H as (x & _ & H).
    destruct x as [| |[|]| | | |]; try (now apply IH).
    apply result_ret in H. injection H as <-. reflexivity.
Qed.

(** A custom failure carries the joined path of its leaf. *)
Lemma validateCustom_path (configNode data : value) (ctx : context) (p : path)
  (m : message) :
  result (validateCustom configNode data ctx p) = Some (Some m) ->
  m_path m = JsString.join "." p.
Proof.
  unfold validateCustom. intros H.
  apply result_bind in H as (validations & _ & H).
  destruct (negb (Js.truthy validations));
    [apply result_ret in H; discriminate|].
  apply result_bind in H as (met & _ & H).
  destruct (Js.truthy met && negb (isBlank (Lodash.get data p)));
    [|apply result_ret in H; discriminate].
  destruct validations; try (apply result_ret in H; discriminate);
    now apply first_failing_path in H.
Qed.



End ValidationFacts.

Section ValidationClaims.

Import Engine.





End ValidationClaims.

(* ===================================================================== *)
(** ** Graph evaluation *)
(* ===================================================================== *)

Example ex_chain :
Engine.evaluateEdgeStates (fun _ => Some (map VStr ["END"; "S2"; "S1"; "START"]))
  (VObj []) Chain.cfg Examples.no_functions Chain.sectionStates
= ([], Some [Chain.with_status (Chain.edge "START" "S1") "active";
             Chain.with_status (Chain.edge "S1" "S2") "inactive";
             Chain.with_status (Chain.edge "S2" "END") "inactive"]).
Proof. vm_compute. reflexivity. Qed.

Example ex_decision :
Engine.evaluateEdgeStates (fun _ => Some (map VStr ["END"; "START"; "X"; "Y"; "D"]))
  (VObj []) Decision.cfg Examples.no_functions Decision.sectionStates
= ([], Some [Chain.with_status (Decision.edge "D" "X" true) "active";
             Chain.with_status (Decision.edge "D" "Y" false) "inactive"]).
Proof. vm_compute. reflexivity. Qed.

Section MonadLaws.

Context {A B C : Type}.

Lemma bind_ret_l (a : A) (k : A -> W B) : bind (ret a) k = k a.
Proof. unfold bind, ret. destruct (k a) as [l r]. reflexivity. Qed.

Lemma bind_logged (l : list string) (a : A) (k : A -> W B) :
  bind (l, Some a) k = (l ++ fst (k a), snd (k a)).
Proof. unfold bind. destruct (k a) as [l' r]. reflexivity. Qed.

Lemma bind_assoc (m : W A) (f : A -> W B) (g : B -> W C) :
  bind (bind m f) g = bind m (fun x => bind (f x) g).
Proof.
  unfold bind. destruct m as [l [a|]]; [|reflexivity].
  destruct (f a) as [l1 [b|]]; [|reflexivity].
  destruct (g b) as [l2 r]. now rewrite app_assoc.
Qed.

End MonadLaws.

Lemma bind_ext {A B : Type} (m : W A) (f g : A -> W B) :
  (forall a, f a = g a) -> bind m f = bind m g.
Proof.
  intros H. unfold bind. destruct m as [l [a|]]; [|reflexivity].
  now rewrite H.
Qed.

Section FoldLaws.

Context {A S : Type}.

Lemma foldW_app (f : S -> A -> W S) (a b : list A) (s : S) :
  foldW f (a ++ b) s = bind (foldW f a s) (foldW f b).
Proof.
  revert s. induction a as [|x a IH]; intros s; cbn [foldW app].
  - now rewrite bind_ret_l.
  - rewrite bind_assoc. apply bind_ext. exact IH.
Qed.

End FoldLaws.

Section GraphFacts.

Import Engine GraphNotions.

Variable cfg : config.
Variable data : value.
Variable ctx : context.
Variable sectionStates : list (string * section_state).

(** Past the frontier a node gets its status without its configuration
    being read or its rule resolved. *)
Lemma node_status_blocked (m : list (string * value)) (nodePath : value) :
  node_status cfg data ctx sectionStates (Some m, true) nodePath
  = ret (Some (Js.assign (Js.toString nodePath) (blocked_status nodePath) m), true).
Proof.
  unfold node_status, blocked_status.
  destruct (isTerminalNodePath nodePath); reflexivity.
Qed.

Lemma nodeStatuses_blocked (post : list value) :
  forall m : list (string * value),
    foldW (node_status cfg data ctx sectionStates) post (Some m, true)
    = ret (Some (block m post), true).
Proof.
  induction post as [|n post IH]; intros m; [reflexivity|].
  cbn [foldW]. rewrite node_status_blocked, bind_ret_l. apply IH.
Qed.

Lemma node_status_terminal (m : list (string * value)) (frontierFound : bool)
  (t : value) :
  isTerminalNodePath t = true ->
  node_status cfg data ctx sectionStates (Some m, frontierFound) t
  = ret (Some (Js.assign (Js.toString t) (VStr "active") m), frontierFound).
Proof. intros H. unfold node_status. now rewrite H. Qed.

(** The first section that is not valid sets the frontier. *)
Lemma node_status_invalid_section (m : list (string * value)) (s node : value)
  (id : string) (st : section_state) :
  isTerminalNodePath s = false ->
  getConfigNodeByPath cfg ("$." +:+ Js.toString s) = node ->
  is_str (Js.prop node "type") "input_section" = true ->
  Js.prop node "id" = VStr id ->
  Js.assoc (JsString.remove_first "$." id) sectionStates = Some st ->
  String.eqb (status st) "valid" = false ->
  node_status cfg data ctx sectionStates (Some m, false) s
  = ret (Some (Js.assign (Js.toString s) (VStr "inactive") m), true).
Proof.
  intros Ht Hn Hty Hid Hst Hinv. unfold node_status.
  rewrite Ht, Hn. unfold get_prop.
  destruct (Js.is_nullish node) eqn:En.
  - destruct node; try discriminate En; discriminate Hty.
  - rewrite bind_ret_l, Hty, Hid, Hst, Hinv. reflexivity.
Qed.

Lemma nodeStatuses_frontier (pre post : list value) (s node : value)
  (log : list string) (m : list (string * value)) (id : string)
  (st : section_state) :
  nodeStatuses cfg data ctx sectionStates pre = (log, Some (Some m, false)) ->
  isTerminalNodePath s = false ->
  getConfigNodeByPath cfg ("$." +:+ Js.toString s) = node ->
  is_str (Js.prop node "type") "input_section" = true ->
  Js.prop node "id" = VStr id ->
  Js.assoc (JsString.remove_first "$." id) sectionStates = Some st ->
  String.eqb (status st) "valid" = false ->
  nodeStatuses cfg data ctx sectionStates (pre ++ s :: post)
  = (log, Some (Some (block (Js.assign (Js.toString s) (VStr "inactive") m) post),
                true)).
Proof.
  intros Hpre Ht Hn Hty Hid Hst Hinv. unfold nodeStatuses in *.
  rewrite foldW_app, Hpre, bind_logged. cbn [foldW].
  rewrite (node_status_invalid_section m s node id st Ht Hn Hty Hid Hst Hinv).
  rewrite bind_ret_l, nodeStatuses_blocked.
  cbn [ret fst snd]. now rewrite app_nil_r.
Qed.

End GraphFacts.

Section BlockFacts.

Import Engine GraphNotions.

Lemma block_snoc (m : list (string * value)) (post : list value) (n : value) :
  block m (post ++ [n])
  = Js.assign (Js.toString n) (blocked_status n) (block m post).
Proof. unfold block. now rewrite fold_left_app. Qed.

(** The status of a node named by a string, after the frontier. *)
Lemma block_lookup (post : list value) :
  forall (m : list (string * value)) (k : string),
    forallb is_string post = true ->
    In (VStr k) post \/ Js.assoc k m = Some (blocked_status (VStr k)) ->
    Js.assoc k (block m post) = Some (blocked_status (VStr k)).
Proof.
  induction post as [|n post IH] using rev_ind; intros m k Hs H.
  - destruct H as [[]|H]. exact H.
  - rewrite forallb_app in Hs. apply andb_true_iff in Hs as [Hs Hn].
    cbn in Hn. rewrite andb_true_r in Hn.
    destruct n as [| | | |k'| |]; try discriminate Hn.
    rewrite block_snoc. cbn [Js.toString].
    destruct (String.eqb k' k) eqn:E.
    + apply String.eqb_eq in E. subst k'. apply assign_assoc_eq.
    + assert (Hne : k <> k') by (intros ->; now rewrite String.eqb_refl in E).
      rewrite assign_assoc_ne by exact Hne.
      apply IH; [exact Hs|].
      destruct H as [H|H]; [|now right].
      apply in_app_or in H as [H|[H|[]]]; [now left|].
      injection H as ->. congruence.
Qed.

Lemma edge_status_base (fromNode nodeStatus when_input_is : value) :
  is_str (Js.prop fromNode "type") "decision" = false ->
  edge_status fromNode nodeStatus when_input_is = nodeStatus.
Proof. intros H. unfold edge_status. now rewrite H. Qed.

Lemma edge_status_decision (fromNode nodeStatus when_input_is : value) :
  is_str (Js.prop fromNode "type") "decision" = true ->
  is_str nodeStatus "inactive" = false ->
  edge_status fromNode nodeStatus when_input_is
  = VStr (if Bool.eqb (Js.truthy nodeStatus) (Js.truthy when_input_is)
          then "active" else "inactive").
Proof.
  intros H1 H2. unfold edge_status. rewrite H1, H2. simpl.
  destruct (Js.truthy nodeStatus), (Js.truthy when_input_is); reflexivity.
Qed.

End BlockFacts.

Section ExampleOrders.

Import Engine GraphNotions.

Ltac split_checks :=
  repeat match goal with
         | H : _ && _ = true |- _ => apply andb_true_iff in H as [? ?]
         end.

Ltac enumerate_positions :=
  repeat match goal with
         | H : _ || _ = true |- _ => apply orb_true_iff in H as [H|H]
         | H : String.eqb _ _ = true |- _ => apply String.eqb_eq in H
         | H : false = true |- _ => discriminate H
         end.

(** The chain has one topological order. *)
Lemma chain_order_unique (l : list string) :
  topological Chain.deps l = true -> l = ["END"; "S2"; "S1"; "START"].
Proof.
  unfold topological.
  (let n := eval vm_compute in (nodes_of Chain.deps) in
   change (nodes_of Chain.deps) with n).
  intros H. apply andb_true_iff in H as [H H3].
  apply andb_true_iff in H as [H1 H2].
  destruct l as [|a [|b [|c [|d [|e l]]]]]; try discriminate H1. clear H1.
  cbn [forallb existsb] in H2. split_checks.
  enumerate_positions; subst; try discriminate;
    vm_compute in H3; try discriminate H3; reflexivity.
Qed.

Lemma chain_evaluation_order
  (toposort : list (value * value) -> option (list value)) :
  getNodeEvaluationOrder toposort (edges Chain.cfg)
  = match toposort (as_values Chain.deps) with
    | Some order => ret (rev order)
    | None => throw
    end.
Proof. vm_compute. destruct (toposort _); reflexivity. Qed.

Lemma decision_evaluation_order
  (toposort : list (value * value) -> option (list value)) :
  getNodeEvaluationOrder toposort (edges Decision.cfg)
  = match toposort (as_values Decision.deps) with
    | Some order => ret (rev order)
    | None => throw
    end.
Proof. vm_compute. destruct (toposort _); reflexivity. Qed.

(** Whatever topological order is chosen for the decision graph, its
    edges get the same statuses. *)
Lemma decision_any_order (l : list string) :
  topological Decision.deps l = true ->
  (let* acc := nodeStatuses Decision.cfg (VObj []) Examples.no_functions
                 Decision.sectionStates (rev (map VStr l)) in
   mapW (edge_state Decision.cfg (fst acc)) (edges Decision.cfg))
  = ([], Some [Chain.with_status (Decision.edge "D" "X" true) "active";
               Chain.with_status (Decision.edge "D" "Y" false) "inactive"]).
Proof.
  unfold topological.
  (let n := eval vm_compute in (nodes_of Decision.deps) in
   change (nodes_of Decision.deps) with n).
  intros H. apply andb_true_iff in H as [H H3].
  apply andb_true_iff in H as [H1 H2].
  destruct l as [|a [|b [|c [|d [|e [|f l]]]]]]; try discriminate H1. clear H1.
  cbn [forallb existsb] in H2. split_checks.
  enumerate_positions; subst; try discriminate;
    vm_compute in H3; try discriminate H3; vm_compute; reflexivity.
Qed.

End ExampleOrders.

Section GraphClaims.

Import Engine GraphNotions.

(** C5: (1) when the evaluation order is [pre ++ s :: post], the nodes of
    [pre] were evaluated without finding the frontier, and [s] is an
    input section whose state is not valid, then [s] is inactive, the
    frontier is found, and every node of [post] gets its status without
    its configuration or rule being looked at: inactive, or active for
    [START] and [END]; (2) so each node of [post] named by a string reads
    inactive unless it is terminal; (3) a terminal node is made active
    whether or not the frontier is found; (4) an edge whose from-node is
    not a decision has the status of its from-node; (5) for
    [START -> S1 -> S2 -> END] with [S1] invalid, whatever topological
    order [toposort] returns, [START], [END] are active, [S1], [S2] are
    inactive, edge [START -> S1] is active and edges [S1 -> S2] and
    [S2 -> END] are inactive. *)
Theorem C5_frontier_blocks_later_nodes :
  (forall cfg data ctx sectionStates pre post s node log m id st,
      nodeStatuses cfg data ctx sectionStates pre = (log, Some (Some m, false)) ->
      isTerminalNodePath s = false ->
      getConfigNodeByPath cfg ("$." +:+ Js.toString s) = node ->
      is_str (Js.prop node "type") "input_section" = true ->
      Js.prop node "id" = VStr id ->
      Js.assoc (JsString.remove_first "$." id) sectionStates = Some st ->
      String.eqb (status st) "valid" = false ->
      nodeStatuses cfg data ctx sectionStates (pre ++ s :: post)
      = (log, Some (Some (block (Js.assign (Js.toString s) (VStr "inactive") m) post),
                    true)))
  /\ (forall post m k,
         forallb is_string post = true ->
         In (VStr k) post \/ Js.assoc k m = Some (blocked_status (VStr k)) ->
         Js.assoc k (block m post) = Some (blocked_status (VStr k)))
  /\ (forall cfg data ctx sectionStates m frontierFound t,
         isTerminalNodePath t = true ->
         node_status cfg data ctx sectionStates (Some m, frontierFound) t
         = ret (Some (Js.assign (Js.toString t) (VStr "active") m), frontierFound))
  /\ (forall fromNode nodeStatus when_input_is,
         is_str (Js.prop fromNode "type") "decision" = false ->
         edge_status fromNode nodeStatus when_input_is = nodeStatus)
  /\ (forall toposort l,
         toposort (as_values Chain.deps) = Some (map VStr l) ->
         topological Chain.deps l = true ->
         nodeStatuses Chain.cfg (VObj []) Examples.no_functions
           Chain.sectionStates (rev (map VStr l))
         = ([], Some (Some [("START", VStr "active"); ("S1", VStr "inactive");
                            ("S2", VStr "inactive"); ("END", VStr "active")],
                      true))
         /\ evaluateEdgeStates toposort (VObj []) Chain.cfg Examples.no_functions
              Chain.sectionStates
            = ([], Some [Chain.with_status (Chain.edge "START" "S1") "active";
                         Chain.with_status (Chain.edge "S1" "S2") "inactive";
                         Chain.with_status (Chain.edge "S2" "END") "inactive"])).
Proof.
  split; [|split; [|split; [|split]]].
  - intros. now apply (nodeStatuses_frontier cfg data ctx sectionStates
                         pre post s node log m id st).
  - intros post m k. apply block_lookup.
  - intros. now apply node_status_terminal.
  - intros. now apply edge_status_base.
  - intros toposort l Hsort Htop.
    apply chain_order_unique in Htop. subst l. split.
    + vm_compute. reflexivity.
    + unfold evaluateEdgeStates.
      rewrite chain_evaluation_order, Hsort. vm_compute. reflexivity.
Qed.

Lemma C5_frontier_blocks_later_nodes_witness :
  nodeStatuses Chain.cfg (VObj []) Examples.no_functions Chain.sectionStates
    ([VStr "START"] ++ VStr "S1" :: [VStr "S2"; VStr "END"])
  = ([], Some (Some (block (Js.assign "S1" (VStr "inactive")
                              [("START", VStr "active")])
                       [VStr "S2"; VStr "END"]), true)).
Proof.
  apply (proj1 C5_frontier_blocks_later_nodes Chain.cfg (VObj [])
           Examples.no_functions Chain.sectionStates [VStr "START"]
           [VStr "S2"; VStr "END"] (VStr "S1") (Chain.section_node "S1")
           [] [("START", VStr "active")] "S1"
           (SectionState "invalid" [Message "S1.name" (VStr "Required")]));
    reflexivity.
Defined.

(** C6: (1) before the frontier the status of a decision node is the
    resolved value of its output; (2) an edge whose from-node is a
    decision with a status other than ['inactive'] is active exactly when
    the truth value of that status equals the truth value of its
    [when_input_is] tag, and inactive otherwise; (3) for a decision [D]
    whose output resolves to [true], whatever topological order
    [toposort] returns, edge [D -> X] tagged [true] is active and edge
    [D -> Y] tagged [false] is inactive. *)
Theorem C6_decision_edges_follow_the_output :
  (forall cfg data ctx sectionStates m nodePath node,
      isTerminalNodePath nodePath = false ->
      getConfigNodeByPath cfg ("$." +:+ Js.toString nodePath) = node ->
      is_str (Js.prop node "type") "decision" = true ->
      node_status cfg data ctx sectionStates (Some m, false) nodePath
      = (let* out := Resolver.resolve ctx data TNull (Js.prop node "output") in
         ret (Some (Js.assign (Js.toString nodePath) out m), false)))
  /\ (forall cfg m edge fromNode nodeStatus,
         Js.is_nullish edge = false ->
         getConfigNodeByPath cfg ("$." +:+ Js.toString (Js.prop edge "from"))
         = fromNode ->
         default VUndef (Js.assoc (Js.toString (Js.prop edge "from")) m)
         = nodeStatus ->
         is_str (Js.prop fromNode "type") "decision" = true ->
         is_str nodeStatus "inactive" = false ->
         exists out,
           edge_state cfg (Some m) edge = ret out
           /\ Js.prop out "status"
              = VStr (if Bool.eqb (Js.truthy nodeStatus)
                                  (Js.truthy (Js.prop edge "when_input_is"))
                      then "active" else "inactive"))
  /\ (forall toposort l,
         toposort (as_values Decision.deps) = Some (map VStr l) ->
         topological Decision.deps l = true ->
         evaluateEdgeStates toposort (VObj []) Decision.cfg Examples.no_functions
           Decision.sectionStates
         = ([], Some [Chain.with_status (Decision.edge "D" "X" true) "active";
                      Chain.with_status (Decision.edge "D" "Y" false) "inactive"])).
Proof.
  split; [|split].
  - intros cfg data ctx sectionStates m nodePath node Ht Hn Hty.
    unfold node_status. rewrite Ht, Hn. unfold get_prop.
    destruct (Js.is_nullish node) eqn:En;
      [destruct node; try discriminate En; discriminate Hty|].
    rewrite bind_ret_l, Hty.
    destruct (Js.prop node "type") as [| | | |ty| |]; try discriminate Hty.
    simpl in Hty. apply String.eqb_eq in Hty. subst ty. reflexivity.
  - intros cfg m edge fromNode nodeStatus Hedge Hfrom Hst Hty Hin.
    unfold edge_state, get_prop. rewrite Hedge, bind_ret_l. cbv zeta.
    rewrite Hfrom, Hst.
    assert (Ht : Js.truthy fromNode = true)
      by (destruct fromNode; try discriminate Hty; reflexivity).
    rewrite Ht. eexists. split; [reflexivity|].
    cbn [Js.prop]. rewrite assign_assoc_eq. cbn [default].
    now apply edge_status_decision.
  - intros toposort l Hsort Htop. unfold evaluateEdgeStates.
    rewrite decision_evaluation_order, Hsort. cbv zeta.
    rewrite bind_ret_l. now apply decision_any_order.
Qed.

Lemma C6_decision_edges_follow_the_output_witness :
  exists out,
    edge_state Decision.cfg (Some [("D", VBool true)]) (Decision.edge "D" "X" true)
    = ret out
    /\ Js.prop out "status" = VStr "active".
Proof.
  apply (proj1 (proj2 C6_decision_edges_follow_the_output) Decision.cfg
           [("D", VBool true)] (Decision.edge "D" "X" true) Decision.node_D
           (VBool true));
    reflexivity.
Defined.

End GraphClaims.

(* ===================================================================== *)
(** * Further properties of the code *)
(* ===================================================================== *)

(** ** Path utilities *)

Section MorePathFacts.

Import JsString PathUtils PathNotions.

Lemma split_nonempty (c : ascii) (s : string) : split c s <> [].
Proof.
  destruct s as [|a s]; simpl; [discriminate|].
  destruct (Ascii.eqb a c); [discriminate|].
  destruct (split c s); discriminate.
Qed.

Lemma token_matches_refl (t : string) : token_matches t t = true.
Proof. unfold token_matches. now rewrite String.eqb_refl. Qed.

Lemma all_match_refl (p : path) : all_match p p = true.
Proof.
  induction p as [|t p IH]; [reflexivity|].
  cbn [all_match]. now rewrite token_matches_refl, IH.
Qed.

Lemma all_match_no_wildcard (ref : list string) :
  forall dp : path,
    forallb (fun t => negb (String.eqb t "*")) ref = true ->
    length ref = length dp ->
    all_match ref dp = true -> dp = ref.
Proof.
  induction ref as [|t ref IH]; intros [|d dp] Hw Hl Hm; try discriminate;
    [reflexivity|].
  cbn [forallb all_match] in *.
  apply andb_true_iff in Hw as [Ht Hw]. apply andb_true_iff in Hm as [Hd Hm].
  apply negb_true_iff in Ht. unfold token_matches in Hd. rewrite Ht in Hd.
  simpl in Hd. rewrite orb_false_r in Hd. apply String.eqb_eq in Hd. subst d.
  f_equal. apply IH; [exact Hw | now injection Hl | exact Hm].
Qed.

Lemma getRefPathForDataPath_dotted (p : path) :
  getRefPathForDataPath p
  = strip_trailing_dot_star ("$" +:+ dotted (map pattern_token p)).
Proof.
  unfold getRefPathForDataPath.
  change (fold_left _ p "$")
    with (fold_left (fun memo prop => memo +:+ "." +:+ pattern_token prop) p "$").
  now rewrite fold_pattern.
Qed.

Lemma pattern_token_numeric (i : string) :
  isNaN i = false -> pattern_token i = "*".
Proof. intros H. unfold pattern_token. now rewrite H. Qed.

(** X1: the paths [getDataPathsForRefPath] returns are paths of the
    traversal, in traversal order; each has as many tokens as the pattern,
    so the root (the empty path) is never returned. *)
Theorem X1_matched_paths_follow_the_traversal (p : string) (data : value) :
  getDataPathsForRefPath p data `sublist_of` Traverse.paths data
  /\ Forall (fun dp => length dp = length (refPathArr p) /\ dp <> [])
       (getDataPathsForRefPath p data).
Proof.
  split; [apply sublist_filter|].
  apply Forall_forall. intros dp H.
  apply getDataPathsForRefPath_spec in H as (_ & Hl & _).
  split; [now symmetry|].
  intros ->. simpl in Hl.
  pose proof (split_nonempty "." (remove_first "$." p)) as Hne.
  unfold refPathArr in Hl. destruct (split "." _); [congruence | discriminate].
Qed.

(** X2: a pattern with no [*] token matches nothing but the path made of
    its own tokens, and it does match that path wherever the tree has
    it. *)
Theorem X2_pattern_without_wildcard (p : string) (data : value) :
  forallb (fun t => negb (String.eqb t "*")) (refPathArr p) = true ->
  (forall dp, dp ∈ getDataPathsForRefPath p data -> dp = refPathArr p)
  /\ (refPathArr p ∈ Traverse.paths data ->
      refPathArr p ∈ getDataPathsForRefPath p data).
Proof.
  intros Hw. split.
  - intros dp H. apply getDataPathsForRefPath_spec in H as (_ & Hl & Hm).
    now apply all_match_no_wildcard.
  - intros H. apply getDataPathsForRefPath_spec.
    repeat split; [exact H | apply all_match_refl].
Qed.

Lemma X2_pattern_without_wildcard_witness :
  ["a"; "0"] ∈ getDataPathsForRefPath "$.a.0" Examples.one_item.
Proof.
  apply (proj2 (X2_pattern_without_wildcard "$.a.0" Examples.one_item eq_refl)).
  apply list_elem_of_In. cbn. tauto.
Defined.

(** X3: the pattern of a path does not depend on which index stands at a
    numeric position: all items of a repeated group share one pattern. *)
Theorem X3_pattern_ignores_the_index (p q : path) (i j : string) :
  isNaN i = false -> isNaN j = false ->
  getRefPathForDataPath (p ++ i :: q) = getRefPathForDataPath (p ++ j :: q).
Proof.
  intros Hi Hj. rewrite !getRefPathForDataPath_dotted, !map_app.
  cbn [map]. now rewrite (pattern_token_numeric i Hi), (pattern_token_numeric j Hj).
Qed.

Lemma X3_pattern_ignores_the_index_witness :
  getRefPathForDataPath (["items"] ++ "0" :: ["name"])
  = getRefPathForDataPath (["items"] ++ "17" :: ["name"]).
Proof.
  apply (X3_pattern_ignores_the_index ["items"] ["name"] "0" "17"); reflexivity.
Defined.

(** X4: for a path ending in a numeric token, one trailing [.*] is
    dropped and no more: the pattern is [$] followed by the pattern tokens
    of the path without its last token, so [a.0] gives [$.a] and [a.0.1]
    gives [$.a.*]. *)
Theorem X4_trailing_index_is_dropped_once (p : path) (i : string) :
  isNaN i = false ->
  getRefPathForDataPath (p ++ [i]) = "$" +:+ dotted (map pattern_token p).
Proof.
  intros Hi. rewrite getRefPathForDataPath_dotted, map_app. cbn [map].
  rewrite (pattern_token_numeric i Hi).
  rewrite dotted_snoc, <- append_assoc, strip_app_dot.
  change (strip_trailing_dot_star ".*") with "".
  apply append_nil_r.
Qed.

Lemma X4_trailing_index_is_dropped_once_witness :
  getRefPathForDataPath (["a"; "0"] ++ ["1"]) = "$.a.*".
Proof.
  apply (X4_trailing_index_is_dropped_once ["a"; "0"] "1"). reflexivity.
Defined.

End MorePathFacts.

(** ** Relative indexes and string paths *)

Section MoreStringFacts.

Import JsString.

Lemma join_split (s : string) : join "." (split "." s) = s.
Proof.
  induction s as [|a s IH]; [reflexivity|].
  cbn [split]. destruct (Ascii.eqb a ".") eqn:E.
  - apply Ascii.eqb_eq in E. subst a.
    pose proof (split_nonempty "." s) as Hne.
    destruct (split "." s) as [|h t]; [congruence|].
    change (join "." ("" :: h :: t)) with (String "." (join "." (h :: t))).
    now rewrite IH.
  - pose proof (split_nonempty "." s) as Hne.
    destruct (split "." s) as [|h t]; [congruence|].
    destruct t as [|u t].
    + simpl in IH. subst h. reflexivity.
    + change (join "." (String a h :: u :: t))
        with (String a (join "." (h :: u :: t))).
      now rewrite IH.
Qed.

Lemma join_opt_Some (toks : list string) :
  join_opt "." (map Some toks) = join "." toks.
Proof. unfold join_opt. now rewrite map_map, map_id. Qed.

End MoreStringFacts.

Section RelativeIndexes.

Import JsString Resolver.

Lemma relative_tokens_plain (t : target) (toks : list string) :
  forall index : nat,
    forallb (fun tok => negb (String.eqb tok "^")) toks = true ->
    relative_tokens t index toks = ret (map Some toks).
Proof.
  induction toks as [|tok toks IH]; intros index H; [reflexivity|].
  cbn [forallb] in H. apply andb_true_iff in H as [Ht Hr].
  apply negb_true_iff in Ht. cbn [relative_tokens map].
  rewrite Ht, bind_ret_l, (IH (S index) Hr), bind_ret_l. reflexivity.
Qed.

Lemma relative_tokens_total (t : target) (toks : list string) :
  forall index : nat,
    t <> TNull -> exists r, relative_tokens t index toks = ret r.
Proof.
  induction toks as [|tok toks IH]; intros index Ht; [now exists []|].
  cbn [relative_tokens].
  destruct (IH (S index) Ht) as [r Hr]. rewrite Hr.
  destruct (String.eqb tok "^").
  - destruct t; try congruence; cbn [target_index];
      rewrite !bind_ret_l; eexists; reflexivity.
  - rewrite !bind_ret_l. eexists; reflexivity.
Qed.

Lemma relative_tokens_null (toks : list string) :
  forall index : nat,
    In "^" toks -> result (relative_tokens TNull index toks) = None.
Proof.
  induction toks as [|tok toks IH]; intros index H; [destruct H|].
  cbn [relative_tokens]. destruct (String.eqb tok "^") eqn:E.
  - reflexivity.
  - destruct H as [->|H]; [discriminate E|].
    rewrite bind_ret_l. specialize (IH (S index) H).
    unfold result, bind in *.
    destruct (relative_tokens TNull (S index) toks) as [l [r|]];
      [discriminate IH | reflexivity].
Qed.

Lemma applyRelativeIndexes_total (pathStr : string) (t : target) :
  t <> TNull -> exists r, applyRelativeIndexes pathStr t = ret r.
Proof.
  intros Ht. unfold applyRelativeIndexes.
  destruct (relative_tokens_total t (split "." pathStr) O Ht) as [r Hr].
  rewrite Hr, bind_ret_l. eexists; reflexivity.
Qed.

(** X5: a path without a [^] token comes back from
    [applyRelativeIndexes] unchanged, whatever the target path is, even
    when it is absent or [null]. *)
Theorem X5_path_without_caret_is_unchanged (pathStr : string) (t : target) :
  forallb (fun tok => negb (String.eqb tok "^")) (split "." pathStr) = true ->
  applyRelativeIndexes pathStr t = ret pathStr.
Proof.
  intros H. unfold applyRelativeIndexes.
  rewrite (relative_tokens_plain t _ O H), bind_ret_l.
  now rewrite join_opt_Some, join_split.
Qed.

Lemma X5_path_without_caret_is_unchanged_witness :
  applyRelativeIndexes "a.*.b" TNull = ret "a.*.b".
Proof.
  apply (X5_path_without_caret_is_unchanged "a.*.b" TNull). reflexivity.
Defined.

(** X6: with a [null] target path a path holding a [^] token makes
    [applyRelativeIndexes] throw; with any other target path, absent
    included, it returns a path and logs nothing. *)
Theorem X6_caret_needs_a_target_that_is_not_null (pathStr : string) :
  (In "^" (split "." pathStr) ->
   result (applyRelativeIndexes pathStr TNull) = None)
  /\ (forall t, t <> TNull -> exists r, applyRelativeIndexes pathStr t = ret r).
Proof.
  split.
  - intros H. unfold applyRelativeIndexes.
    pose proof (relative_tokens_null _ O H) as Hn.
    unfold result, bind in *.
    destruct (relative_tokens TNull O (split "." pathStr)) as [l [r|]];
      [discriminate Hn | reflexivity].
  - intros t Ht. now apply applyRelativeIndexes_total.
Qed.

Lemma X6_caret_needs_a_target_that_is_not_null_witness :
  result (applyRelativeIndexes "a.^.b" TNull) = None.
Proof.
  apply (proj1 (X6_caret_needs_a_target_that_is_not_null "a.^.b")).
  right. left. reflexivity.
Defined.

(** For a non-empty path of tokens that hold no dot, reading by the
    dotted string reads the same location as reading by the token array,
    unless the object has a key that is the whole dotted string, which is
    then read instead. *)
Lemma string_path_and_token_path (data : value) (p : path) :
  p <> [] ->
  forallb (fun t => negb (contains_char "." t)) p = true ->
  Lodash.get_str data (join "." p)
  = if Lodash.has_own data (join "." p)
    then Lodash.get data [join "." p]
    else Lodash.get data p.
Proof.
  intros Hne Hd. unfold Lodash.get_str, Lodash.castPath.
  destruct (Lodash.has_own data (join "." p)); [reflexivity|].
  now rewrite split_join.
Qed.

Lemma string_path_and_token_path_example :
  Lodash.get_str Examples.one_group (join "." ["a"; "0"; "b"])
  = Lodash.get Examples.one_group ["a"; "0"; "b"].
Proof.
  apply (string_path_and_token_path Examples.one_group ["a"; "0"; "b"]).
  - discriminate.
  - reflexivity.
Defined.

End RelativeIndexes.

(** ** The resolver *)

Section ResolveEquations.

Import Resolver ResolveNotions.

Variable ctx : context.
Variable data : value.
Variable t : target.








End ResolveEquations.


Section MapFacts.

Context {A B : Type}.

Lemma result_mapW (f : A -> W B) (l : list A) :
  forall r, result (mapW f l) = Some r ->
            Forall2 (fun x y => result (f x) = Some y) l r.
Proof.
  induction l as [|x l IH]; intros r H; cbn [mapW] in H.
  - apply result_ret in H. subst. constructor.
  - apply result_bind in H as (y & Hy & H).
    apply result_bind in H as (ys & Hys & H).
    apply result_ret in H. subst. constructor; [exact Hy | now apply IH].
Qed.


End MapFacts.

Section ResolveFacts.

Import Resolver.

Variable ctx : context.
Variable data : value.


End ResolveFacts.

Section ResolveShape.

Import Resolver ResolveNotions.

Variable ctx : context.
Variable data : value.
Variable t : target.


End ResolveShape.


Section ResolveTotal.

Import Resolver ResolveNotions.

Variable ctx : context.
Variable data : value.
Variable t : target.
Hypothesis target_not_null : t <> TNull.



Lemma null_free_not_nullish (e : value) :
  null_free e = true -> Js.is_nullish e = false.
Proof. destruct e; try discriminate; reflexivity. Qed.




End ResolveTotal.



(** ** Traversal and lookup *)

Section TraverseFacts.

Import Traverse TreeNotions.

Lemma to_index_of_nat (i : nat) : JsString.to_index (JsString.of_nat i) = Some i.
Proof.
  unfold JsString.to_index, JsString.of_nat.
  assert (H : NilZero.uint_of_string (NilZero.string_of_uint (Nat.to_uint i))
              = Some (Nat.to_uint i)).
  { apply NilZero.usu. intros E.
    pose proof (DecimalNat.Unsigned.of_to i) as Hi. rewrite E in Hi.
    simpl in Hi. subst i. discriminate E. }
  rewrite H. cbv zeta. rewrite DecimalNat.Unsigned.of_to.
  now rewrite String.eqb_refl.
Qed.

Lemma keys_unique_items (items : list value) :
  keys_unique (VArr items) = true -> Forall (fun x => keys_unique x = true) items.
Proof.
  induction items as [|x r IH]; [constructor|].
  cbn. intros H. apply andb_true_iff in H as [Hx Hr].
  constructor; [exact Hx | now apply IH].
Qed.

Lemma keys_unique_fields (fields : list (string * value)) :
  keys_unique (VObj fields) = true ->
  no_dup (map fst fields) = true
  /\ Forall (fun kv => keys_unique (snd kv) = true) fields.
Proof.
  cbn [keys_unique]. intros H. apply andb_true_iff in H as [Hd H].
  split; [exact Hd|]. clear Hd.
  induction fields as [|[k x] r IH]; [constructor|].
  apply andb_true_iff in H as [Hx Hr].
  constructor; [exact Hx | now apply IH].
Qed.

Lemma assoc_no_dup (fields : list (string * value)) (k : string) (x : value) :
  no_dup (map fst fields) = true -> In (k, x) fields ->
  Js.assoc k fields = Some x.
Proof.
  induction fields as [|[k' y] r IH]; intros Hd Hin; [destruct Hin|].
  cbn [map fst no_dup] in Hd. apply andb_true_iff in Hd as [Hk Hd].
  cbn [Js.assoc]. destruct Hin as [[= -> ->]|Hin].
  - now rewrite String.eqb_refl.
  - destruct (String.eqb k' k) eqn:E; [|now apply IH].
    apply String.eqb_eq in E. subst k'. apply negb_true_iff in Hk.
    exfalso. apply not_true_iff_false in Hk. apply Hk.
    apply existsb_exists. exists k. split; [|apply String.eqb_refl].
    apply (in_map fst) in Hin. exact Hin.
Qed.

(** The children an array contributes to the walk. *)
Lemma walk_items (pre : path) (visit0 : visit) (items : list value) :
  forall i : nat,
    In visit0
      ((fix go (i : nat) (l : list value) : list visit :=
          match l with
          | [] => []
          | x :: r => walk (pre ++ [JsString.of_nat i]) x ++ go (S i) r
          end) i items) ->
    exists k x, items !! k = Some x
                /\ In visit0 (walk (pre ++ [JsString.of_nat (i + k)]) x).
Proof.
  induction items as [|x r IH]; intros i H; [destruct H|].
  apply in_app_or in H as [H|H].
  - exists O, x. rewrite Nat.add_0_r. now split.
  - destruct (IH (S i) H) as (k & y & Hk & Hy).
    exists (S k), y. rewrite Nat.add_succ_r. now split.
Qed.

Lemma walk_fields (pre : path) (visit0 : visit) (fields : list (string * value)) :
  In visit0
    ((fix go (l : list (string * value)) : list visit :=
        match l with
        | [] => []
        | (k, x) :: r => walk (pre ++ [k]) x ++ go r
        end) fields) ->
  exists k x, In (k, x) fields /\ In visit0 (walk (pre ++ [k]) x).
Proof.
  induction fields as [|[k x] r IH]; intros H; [destruct H|].
  apply in_app_or in H as [H|H].
  - exists k, x. split; [now left | exact H].
  - destruct (IH H) as (k' & y & Hk & Hy).
    exists k', y. split; [now right | exact Hy].
Qed.

Lemma walk_root (pre : path) (v : value) (visit0 : visit) :
  In visit0 (walk pre v) ->
  visit0 = Visit pre v (is_leaf v)
  \/ In visit0 (match walk pre v with [] => [] | _ :: r => r end).
Proof. destruct v; cbn; intros [H|H]; auto. Qed.

(** Every visit is reached from the root by the tokens of its path. *)
Lemma walk_baseGet (v : value) :
  forall (pre : path) (visit0 : visit),
    keys_unique v = true ->
    In visit0 (walk pre v) ->
    exists suffix,
      v_path visit0 = pre ++ suffix
      /\ Lodash.baseGet v suffix = Some (v_node visit0).
Proof.
  induction v as [| |b|n|s|items IH|fields IH] using value_induction;
    intros pre visit0 Hu Hin;
    try (destruct Hin as [<-|[]]; exists []; now rewrite app_nil_r).
  - cbn [walk] in Hin. destruct Hin as [<-|Hin];
      [exists []; now rewrite app_nil_r|].
    apply (walk_items pre visit0 items O) in Hin as (k & x & Hk & Hx).
    cbn [Nat.add] in Hx.
    apply keys_unique_items in Hu.
    pose proof (Forall_lookup_1 _ _ _ _ IH Hk) as IHx.
    pose proof (Forall_lookup_1 _ _ _ _ Hu Hk) as Hux. cbn beta in IHx, Hux.
    destruct (IHx _ _ Hux Hx) as (suffix & Hp & Hg).
    exists (JsString.of_nat k :: suffix). split.
    + rewrite Hp, <- app_assoc. reflexivity.
    + cbn [Lodash.baseGet Js.is_nullish Js.prop].
      now rewrite to_index_of_nat, Hk.
  - cbn [walk] in Hin. destruct Hin as [<-|Hin];
      [exists []; now rewrite app_nil_r|].
    apply walk_fields in Hin as (k & x & Hk & Hx).
    apply keys_unique_fields in Hu as [Hd Hu].
    rewrite Forall_forall in IH, Hu.
    apply list_elem_of_In in Hk as Hk'.
    destruct (IH _ Hk' _ _ (Hu _ Hk') Hx) as (suffix & Hp & Hg).
    exists (k :: suffix). split.
    + rewrite Hp, <- app_assoc. reflexivity.
    + cbn [Lodash.baseGet Js.is_nullish Js.prop].
      now rewrite (assoc_no_dup fields k x Hd Hk).
Qed.

End TraverseFacts.

(** In a tree whose objects have each key once, every node the
    traversal visits below the root is the value [get] reads at the path
    of that visit. *)
Lemma get_reads_the_visited_node (data : value) (v : Traverse.visit) :
  TreeNotions.keys_unique data = true ->
  In v (Traverse.forEach data) ->
  Traverse.v_path v <> [] ->
  Lodash.get data (Traverse.v_path v) = Traverse.v_node v.
Proof.
  intros Hu Hin Hne.
  destruct (walk_baseGet data [] v Hu Hin) as (suffix & Hp & Hg).
  cbn [app] in Hp. rewrite Hp in *. unfold Lodash.get.
  destruct suffix; [congruence|]. now rewrite Hg.
Qed.

Lemma get_reads_the_visited_node_example :
  Lodash.get Examples.one_group ["a"; "0"; "b"] = VNum 1.
Proof.
  apply (get_reads_the_visited_node Examples.one_group
           (Traverse.Visit ["a"; "0"; "b"] (VNum 1) true)).
  - reflexivity.
  - cbn. tauto.
  - discriminate.
Defined.

(** ** The working copy *)

Section CopyFacts.

Import Heap StoreNotions.

Lemma reify_items (fuel : nat) (st : store) (hs : list hval) (items : list value) :
  Forall2 (fun h x => reify fuel st h = Some x) hs items ->
  (fix go (l : list hval) : option (list value) :=
     match l with
     | [] => Some []
     | x :: r =>
         match reify fuel st x, go r with
         | Some y, Some ys => Some (y :: ys)
         | _, _ => None
         end
     end) hs = Some items.
Proof.
  induction 1 as [|h x hs items Hx _ IH]; [reflexivity|].
  now rewrite Hx, IH.
Qed.

Lemma reify_fields (fuel : nat) (st : store) (hs : list (string * hval))
  (fields : list (string * value)) :
  Forall2 (fun h x => fst h = fst x /\ reify fuel st (snd h) = Some (snd x))
    hs fields ->
  (fix go (l : list (string * hval)) : option (list (string * value)) :=
     match l with
     | [] => Some []
     | (k, x) :: r =>
         match reify fuel st x, go r with
         | Some y, Some ys => Some ((k, y) :: ys)
         | _, _ => None
         end
     end) hs = Some fields.
Proof.
  induction 1 as [|[k h] [k' x] hs fields [Hk Hx] _ IH]; [reflexivity|].
  cbn [fst snd] in Hk, Hx. subst k'. now rewrite Hx, IH.
Qed.

Lemma reify_array (fuel : nat) (st : store) (l : loc) (hs : list hval)
  (items : list value) :
  st !! l = Some (CArr hs) ->
  Forall2 (fun h x => reify fuel st h = Some x) hs items ->
  reify (S fuel) st (HRef l) = Some (VArr items).
Proof.
  intros Hl H. cbn [reify]. rewrite Hl.
  now rewrite (reify_items fuel st hs items H).
Qed.

Lemma reify_object (fuel : nat) (st : store) (l : loc)
  (hs : list (string * hval)) (fields : list (string * value)) :
  st !! l = Some (CObj hs) ->
  Forall2 (fun h x => fst h = fst x /\ reify fuel st (snd h) = Some (snd x))
    hs fields ->
  reify (S fuel) st (HRef l) = Some (VObj fields).
Proof.
  intros Hl H. cbn [reify]. rewrite Hl.
  now rewrite (reify_fields fuel st hs fields H).
Qed.

(** The copy reads as the tree it was built from, to a depth bounded by
    the number of cells added. *)
Lemma alloc_reify (v : value) :
  forall st : store,
    exists ext : store,
      fst (alloc v st) = st ++ ext
      /\ reify (S (length ext)) (st ++ ext) (snd (alloc v st)) = Some v.
Proof.
  induction v as [| |b|n|s|items IH|fields IH] using value_induction;
    intros st;
    try (exists []; rewrite app_nil_r; split; reflexivity).
  - cbn -[reify].
    match goal with
    | |- context [let '(_, _) := ?g items st in _] => set (go := g)
    end.
    assert (G : exists ext,
      fst (go items st) = st ++ ext
      /\ Forall2 (fun h x => reify (S (length ext)) (st ++ ext) h = Some x)
           (snd (go items st)) items).
    { clear -IH. revert st.
      induction items as [|x r IHr]; intros st.
      - exists []. rewrite app_nil_r. split; [reflexivity | constructor].
      - apply Forall_cons in IH as [Hx Hr].
        destruct (Hx st) as (e1 & E1 & R1).
        cbn -[reify]. destruct (alloc x st) as [st1 h]. cbn [fst snd] in E1, R1. subst st1.
        destruct (IHr Hr (st ++ e1)) as (e2 & E2 & R2).
        destruct (go r (st ++ e1)) as [st2 hs]. cbn [fst snd] in E2, R2. subst st2.
        cbn [fst snd]. exists (e1 ++ e2). rewrite app_assoc. split; [reflexivity|].
        rewrite length_app. constructor.
        + apply (reify_mono (S (length e1)) _ (st ++ e1)); [lia | | exact R1].
          apply extends_app.
        + eapply Forall2_impl; [exact R2|]. intros h' x' H'. cbn beta in H'.
          apply (reify_mono (S (length e2)) _ ((st ++ e1) ++ e2));
            [lia | apply extends_refl | exact H']. }
    destruct G as (ext & E & R).
    destruct (go items st) as [st' hs]. cbn [fst snd] in E, R. subst st'. cbn [fst snd].
    exists (ext ++ [CArr hs]). rewrite app_assoc. split; [reflexivity|].
    rewrite length_app. cbn [length]. rewrite Nat.add_1_r.
    apply (reify_array _ _ _ hs); [now apply list_lookup_middle|].
    eapply Forall2_impl; [exact R|]. intros h' x' H'. cbn beta in H'.
    apply (reify_mono (S (length ext)) _ (st ++ ext));
      [lia | apply extends_app | exact H'].
  - cbn -[reify].
    match goal with
    | |- context [let '(_, _) := ?g fields st in _] => set (go := g)
    end.
    assert (G : exists ext,
      fst (go fields st) = st ++ ext
      /\ Forall2 (fun h x => fst h = fst x
                             /\ reify (S (length ext)) (st ++ ext) (snd h)
                                = Some (snd x))
           (snd (go fields st)) fields).
    { clear -IH. revert st.
      induction fields as [|[k x] r IHr]; intros st.
      - exists []. rewrite app_nil_r. split; [reflexivity | constructor].
      - apply Forall_cons in IH as [Hx Hr]. cbn [snd] in Hx.
        destruct (Hx st) as (e1 & E1 & R1).
        cbn -[reify]. destruct (alloc x st) as [st1 h]. cbn [fst snd] in E1, R1. subst st1.
        destruct (IHr Hr (st ++ e1)) as (e2 & E2 & R2).
        destruct (go r (st ++ e1)) as [st2 hs]. cbn [fst snd] in E2, R2. subst st2.
        cbn [fst snd]. exists (e1 ++ e2). rewrite app_assoc. split; [reflexivity|].
        rewrite length_app. constructor.
        + split; [reflexivity|]. cbn [snd].
          apply (reify_mono (S (length e1)) _ (st ++ e1)); [lia | | exact R1].
          apply extends_app.
        + eapply Forall2_impl; [exact R2|]. intros h' x' [Hk H'].
          split; [exact Hk|].
          apply (reify_mono (S (length e2)) _ ((st ++ e1) ++ e2));
            [lia | apply extends_refl | exact H']. }
    destruct G as (ext & E & R).
    destruct (go fields st) as [st' hs]. cbn [fst snd] in E, R. subst st'. cbn [fst snd].
    exists (ext ++ [CObj hs]). rewrite app_assoc. split; [reflexivity|].
    rewrite length_app. cbn [length]. rewrite Nat.add_1_r.
    apply (reify_object _ _ _ hs); [now apply list_lookup_middle|].
    eapply Forall2_impl; [exact R|]. intros h' x' [Hk H'].
    split; [exact Hk|].
    apply (reify_mono (S (length ext)) _ (st ++ ext));
      [lia | apply extends_app | exact H'].
Qed.

Lemma alloc_read (v : value) (st : store) :
  read (fst (alloc v st)) (snd (alloc v st)) = Some v.
Proof.
  destruct (alloc_reify v st) as (ext & E & R). rewrite E. unfold read.
  apply (reify_mono (S (length ext)) _ (st ++ ext));
    [rewrite length_app; lia | apply extends_refl | exact R].
Qed.

End CopyFacts.

Section CopyClaims.

Import Heap StoreNotions Engine PruneNotions.

Lemma bindS_lift_ret {A B : Type} (a : A) (k : A -> SW B) (st : store) :
  bindS (liftW (ret a)) k st = k a st.
Proof.
  unfold bindS, liftW, ret. cbn [fst snd].
  destruct (k a st) as [[l' st2] r]. reflexivity.
Qed.

Lemma forEachS_skip {A : Type} (f : A -> SW unit) (l : list A) (st : store) :
  (forall x, In x l -> f x st = ([], st, Some tt)) ->
  forEachS f l st = ([], st, Some tt).
Proof.
  induction l as [|x r IH]; intros H; [reflexivity|].
  cbn [forEachS]. unfold bindS. rewrite (H x (or_introl eq_refl)).
  rewrite IH; [reflexivity|]. intros y Hy. apply H. now right.
Qed.

Lemma outcome_bindS {A B : Type} (m : SW A) (k : A -> SW B) (st : store) (b : B) :
  outcome (bindS m k st) = Some b ->
  exists a, outcome (m st) = Some a
            /\ outcome (k a (final_store (m st))) = Some b.
Proof.
  unfold outcome, final_store, bindS.
  destruct (m st) as [[l st1] [a|]]; cbn [fst snd]; [|discriminate].
  destruct (k a st1) as [[l' st2] r] eqn:E. cbn [snd]. intros ->.
  exists a. now rewrite E.
Qed.

Lemma preconditionsMet_absent (node data : value) (ctx : context) (t : target) :
  Js.is_nullish node = false ->
  match Js.prop node "preconditions" with
  | VArr (_ :: _) => false
  | _ => true
  end = true ->
  preconditionsMet node data ctx t = ret (VBool true).
Proof.
  intros Hn Hp. unfold preconditionsMet, get_prop. rewrite Hn, bind_ret_l.
  destruct (Js.prop node "preconditions") as [| | | | |[|x l]|];
    try reflexivity; discriminate Hp.
Qed.

(** The deep copy of a readable tree reads as the same tree, is
    reached through a primitive or a cell that did not exist before, and
    leaves the cells of the original and what is read through the
    original reference as they were. *)
Lemma cloneDeep_copies_the_tree (st : store) (h : hval) (tree : value) :
  read st h = Some tree ->
  exists st' h',
    cloneDeep st h = Some (st', h')
    /\ read st' h' = Some tree
    /\ read st' h = Some tree
    /\ take (length st) st' = st
    /\ above (length st) h'.
Proof.
  intros Hr. unfold cloneDeep. rewrite Hr.
  destruct (alloc_grows tree st (length st) (le_n _)) as (ext & E & F & Ab).
  pose proof (alloc_read tree st) as Hcopy.
  destruct (alloc tree st) as [st' h']. cbn [fst snd] in *. subst st'.
  exists (st ++ ext), h'. repeat split.
  - exact Hcopy.
  - apply (read_extends st); [apply extends_app | rewrite length_app; lia | exact Hr].
  - now rewrite take_app_length.
  - exact Ab.
Qed.

Lemma cloneDeep_copies_the_tree_example :
  exists st' h',
    cloneDeep Cascade.st0 Cascade.root = Some (st', h')
    /\ read st' h' = Some Cascade.data
    /\ read st' Cascade.root = Some Cascade.data
    /\ take (length Cascade.st0) st' = Cascade.st0
    /\ above (length Cascade.st0) h'.
Proof.
  apply (cloneDeep_copies_the_tree Cascade.st0 Cascade.root Cascade.data).
  reflexivity.
Defined.

(** X11: when every entry of the dependency order names a configuration
    node without preconditions (absent, not an array, or an empty array),
    [pruneData] clears nothing, logs nothing and does not throw: it
    returns the deep copy of the input, which reads as the input tree. *)
Theorem X11_nothing_pruned_without_preconditions (data : hval) (cfg : config)
  (depOrder : list value) (ctx : context) (st0 : store) (tree0 : value) :
  read st0 data = Some tree0 ->
  forallb (always_applicable cfg) depOrder = true ->
  pruneData data cfg depOrder ctx st0
  = ([], fst (alloc tree0 st0), Some (snd (alloc tree0 st0)))
  /\ read (fst (alloc tree0 st0)) (snd (alloc tree0 st0)) = Some tree0.
Proof.
  intros Hr Hall. split; [|apply alloc_read].
  unfold pruneData. unfold bindS at 1. unfold cloneDeepS, cloneDeep. rewrite Hr.
  destruct (alloc_grows tree0 st0 (length st0) (le_n _)) as (ext & E & _ & _).
  destruct (alloc tree0 st0) as [st1 result]. cbn [fst snd] in *.
  assert (Hr1 : read st1 data = Some tree0).
  { subst st1. apply (read_extends st0);
      [apply extends_app | rewrite length_app; lia | exact Hr]. }
  unfold bindS. rewrite forEachS_skip; [reflexivity|].
  intros dep Hdep. rewrite forallb_forall in Hall. specialize (Hall dep Hdep).
  unfold always_applicable in Hall. destruct dep; try discriminate Hall.
  apply andb_true_iff in Hall as [Hn Hp]. apply negb_true_iff in Hn.
  unfold prune_dep. rewrite (bind_read data tree0) by exact Hr1.
  apply forEachS_skip. intros p _. unfold prune_path.
  rewrite (bind_read data tree0) by exact Hr1.
  rewrite (preconditionsMet_absent _ tree0 ctx (TArr p) Hn Hp).
  now rewrite bindS_lift_ret.
Qed.

Lemma X11_nothing_pruned_without_preconditions_witness :
  pruneData Cascade.root Cascade.cfg [VStr "$.flag"] Examples.no_functions
    Cascade.st0
  = ([], fst (alloc Cascade.data Cascade.st0),
     Some (snd (alloc Cascade.data Cascade.st0))).
Proof.
  apply (X11_nothing_pruned_without_preconditions Cascade.root Cascade.cfg
           [VStr "$.flag"] Examples.no_functions Cascade.st0 Cascade.data);
    reflexivity.
Defined.

(** X12: what [pruneData] returns is never the caller's object: it is a
    primitive or a reference to a cell that did not exist before the
    call. *)
Theorem X12_pruned_data_is_a_fresh_object (data : hval) (cfg : config)
  (depOrder : list value) (ctx : context) (st0 : store) (result : hval) :
  outcome (pruneData data cfg depOrder ctx st0) = Some result ->
  above (length st0) result.
Proof.
  unfold pruneData. intros H.
  apply outcome_bindS in H as (r & Hc & H).
  apply outcome_bindS in H as (u & _ & H).
  unfold retS, outcome in H. cbn [snd] in H. injection H as <-.
  unfold cloneDeepS, cloneDeep, outcome in Hc.
  destruct (read st0 data) as [tree|]; [|discriminate Hc].
  destruct (alloc_grows tree st0 (length st0) (le_n _)) as (ext & _ & _ & Ab).
  destruct (alloc tree st0) as [st1 h]. cbn [snd] in *.
  injection Hc as <-. exact Ab.
Qed.

Lemma X12_pruned_data_is_a_fresh_object_witness :
  above (length Cascade.st0) (HRef 3).
Proof.
  apply (X12_pruned_data_is_a_fresh_object Cascade.root Cascade.cfg
           Cascade.depOrder Examples.no_functions Cascade.st0 (HRef 3)).
  vm_compute. reflexivity.
Defined.

End CopyClaims.

(** ** Validation helpers *)

Section PreconditionFacts.

Import Engine.

(** X13: once a precondition has resolved to a falsy value, that value
    is the result: the preconditions after it are not resolved, so they
    can neither log nor throw. *)
Theorem X13_preconditions_stop_at_the_first_falsy (ctx : context) (data : value)
  (t : target) (memo : value) (ps : list value) :
  Js.truthy memo = false ->
  preconditions_reduce ctx data t memo ps = ret memo.
Proof.
  intros H. induction ps as [|p rest IH]; [reflexivity|].
  cbn [preconditions_reduce]. now rewrite H.
Qed.

Lemma X13_preconditions_stop_at_the_first_falsy_witness :
  preconditions_reduce Examples.no_functions Cascade.data TNull (VBool false)
    [VNull; VStr "$.a.^"]
  = ret (VBool false).
Proof.
  apply (X13_preconditions_stop_at_the_first_falsy Examples.no_functions
           Cascade.data TNull (VBool false) [VNull; VStr "$.a.^"]).
  reflexivity.
Defined.

End PreconditionFacts.

Section AncestorFacts.

Import JsString Engine.

Lemma nearest_repeatable_skip (l rest : list string) :
  forallb (fun t => negb (String.eqb t "*") && negb (String.eqb t "")) l = true ->
  nearest_repeatable (l ++ "*" :: rest) = Some (join "." (rev rest) +:+ ".*").
Proof.
  induction l as [|t l IH]; intros H; [reflexivity|].
  cbn [forallb] in H. apply andb_true_iff in H as [Ht Hl].
  apply andb_true_iff in Ht as [Hs He].
  apply negb_true_iff in Hs. apply negb_true_iff in He.
  cbn [app nearest_repeatable]. rewrite He, Hs. now apply IH.
Qed.

Lemma nearest_repeatable_none (l : list string) :
  forallb (fun t => negb (String.eqb t "*")) l = true ->
  nearest_repeatable l = None.
Proof.
  induction l as [|t l IH]; intros H; [reflexivity|].
  cbn [forallb] in H. apply andb_true_iff in H as [Ht Hl].
  apply negb_true_iff in Ht. cbn [nearest_repeatable]. rewrite Ht.
  destruct (String.eqb t ""); [reflexivity | now apply IH].
Qed.

Lemma forallb_rev {A : Type} (f : A -> bool) (l : list A) :
  forallb f (rev l) = forallb f l.
Proof.
  induction l as [|x l IH]; [reflexivity|].
  cbn [rev forallb]. rewrite forallb_app, IH. cbn [forallb].
  rewrite andb_true_r. apply andb_comm.
Qed.

(** X14: when the tokens of a path are [pre], then [*], then tokens none
    of which is [*] or empty, the nearest repeatable ancestor is [pre]
    joined by dots followed by [.*]; when no token is [*] there is none,
    even if a star occurs inside a token. *)
Theorem X14_nearest_repeatable_ancestor (p : string) :
  (forall pre post,
      split "." p = pre ++ "*" :: post ->
      forallb (fun t => negb (String.eqb t "*") && negb (String.eqb t "")) post
      = true ->
      getNearestRepeatableAncestorRefPath p = Some (join "." pre +:+ ".*"))
  /\ (forallb (fun t => negb (String.eqb t "*")) (split "." p) = true ->
      getNearestRepeatableAncestorRefPath p = None).
Proof.
  unfold getNearestRepeatableAncestorRefPath. split.
  - intros pre post Hs Hp. rewrite Hs, rev_app_distr. cbn [rev].
    rewrite <- app_assoc. cbn [app].
    rewrite nearest_repeatable_skip by now rewrite forallb_rev.
    now rewrite rev_involutive.
  - intros H. apply nearest_repeatable_none. now rewrite forallb_rev.
Qed.

Lemma X14_nearest_repeatable_ancestor_witness :
  getNearestRepeatableAncestorRefPath "$.a.*.b.*.c.d" = Some "$.a.*.b.*".
Proof.
  apply (proj1 (X14_nearest_repeatable_ancestor "$.a.*.b.*.c.d")
           ["$"; "a"; "*"; "b"] ["c"; "d"]); reflexivity.
Defined.

Lemma split_tokens_no_dot (s : string) :
  forallb (fun t => negb (contains_char "." t)) (split "." s) = true.
Proof.
  induction s as [|a s IH]; [reflexivity|].
  cbn [split]. destruct (Ascii.eqb a ".") eqn:E; [exact IH|].
  pose proof (split_nonempty "." s) as Hne.
  destruct (split "." s) as [|h t]; [congruence|].
  cbn [forallb contains_char] in *. now rewrite E.
Qed.

(** X15: the tokens of the absolute data path are the tokens of the root
    data path followed by the tokens of the ref-path from that position
    on, whether or not the two agree before it; when the ref-path has no
    more tokens than the root, the result is the root data path. *)
Theorem X15_absolute_path_extends_the_root (rootDataPath refPath : string) :
  split "." (getAbsoluteDataPath rootDataPath refPath)
  = split "." rootDataPath
    ++ drop (length (split "." rootDataPath))
         (split "." (remove_first "$." refPath))
  /\ (length (split "." (remove_first "$." refPath))
      <= length (split "." rootDataPath) ->
      getAbsoluteDataPath rootDataPath refPath = rootDataPath).
Proof.
  unfold getAbsoluteDataPath. split.
  - apply split_join.
    + pose proof (split_nonempty "." rootDataPath).
      destruct (split "." rootDataPath); [congruence | discriminate].
    + rewrite forallb_app, split_tokens_no_dot. cbn [andb].
      pose proof (split_tokens_no_dot (remove_first "$." refPath)) as H.
      rewrite forallb_forall in H. apply forallb_forall.
      intros x Hx. apply H. apply list_elem_of_In.
      apply list_elem_of_In in Hx.
      exact (subseteq_drop _ _ _ Hx).
  - intros Hle. rewrite drop_ge by exact Hle.
    rewrite app_nil_r. apply join_split.
Qed.

Lemma X15_absolute_path_extends_the_root_witness :
  split "." (getAbsoluteDataPath "a.0" "$.a.*.b") = ["a"; "0"; "b"]
  /\ getAbsoluteDataPath "a.0.b" "$.a.*" = "a.0.b".
Proof.
  split.
  - exact (proj1 (X15_absolute_path_extends_the_root "a.0" "$.a.*.b")).
  - apply (proj2 (X15_absolute_path_extends_the_root "a.0.b" "$.a.*")).
    cbn. lia.
Defined.

End AncestorFacts.

(** ** Sections, derived values and edges *)

Section SectionFacts.

Import Engine.




(** X17: a required message is recorded only for a path whose data is
    blank; it carries that path and a truthy message. *)
Theorem X17_required_message_only_on_blank (configNode data : value)
  (ctx : context) (p : string) (m : message) :
  result (validateRequired configNode data ctx p) = Some (Some m) ->
  m_path m = p
  /\ Js.truthy (m_message m) = true
  /\ dataNodeIsBlank p data = true.
Proof.
  unfold validateRequired. intros H.
  apply result_bind in H as (required & _ & H).
  apply result_bind in H as (msg & _ & H).
  destruct (Js.truthy msg) eqn:Et; [|apply result_ret in H; discriminate].
  apply result_bind in H as (met & _ & H).
  destruct (Js.truthy met && dataNodeIsBlank p data) eqn:E;
    apply result_ret in H; [|discriminate].
  injection H as <-. apply andb_true_iff in E as [_ Hb].
  repeat split; assumption.
Qed.

Lemma X17_required_message_only_on_blank_witness :
  dataNodeIsBlank "sec.items" Validation.data = true.
Proof.
  apply (X17_required_message_only_on_blank Validation.items_node
           Validation.data Validation.ctx "sec.items"
           (Message "sec.items" (VStr "Required!"))).
  vm_compute. reflexivity.
Defined.

(** X18: a custom failure is recorded only for a leaf whose value is not
    blank and whose node declares validations; it carries the joined path
    of the leaf. *)
Theorem X18_custom_failure_only_on_a_value (configNode data : value)
  (ctx : context) (p : path) (m : message) :
  result (validateCustom configNode data ctx p) = Some (Some m) ->
  m_path m = JsString.join "." p
  /\ isBlank (Lodash.get data p) = false
  /\ Js.truthy (Js.prop (match configNode with VUndef => VObj [] | _ => configNode end)
                  "validations") = true.
Proof.
  intros H. split; [now apply validateCustom_path in H|].
  unfold validateCustom in H.
  apply result_bind in H as (validations & Hv & H).
  unfold get_prop in Hv.
  destruct (Js.is_nullish _); [discriminate Hv|].
  apply result_ret in Hv. subst validations.
  destruct (Js.truthy (Js.prop _ "validations")) eqn:Et;
    [|apply result_ret in H; discriminate].
  cbn [negb] in H.
  apply result_bind in H as (met & _ & H).
  destruct (Js.truthy met && negb (isBlank (Lodash.get data p))) eqn:E;
    [|apply result_ret in H; discriminate].
  apply andb_true_iff in E as [_ Hb]. apply negb_true_iff in Hb.
  split; [exact Hb | reflexivity].
Qed.

Lemma X18_custom_failure_only_on_a_value_witness :
  isBlank (Lodash.get Validation.dotted_data ["sec"; "a"; "b"]) = false.
Proof.
  apply (X18_custom_failure_only_on_a_value Validation.field_node
           Validation.dotted_data Validation.ctx ["sec"; "a"; "b"]
           (Message "sec.a.b" (VStr "bad"))).
  vm_compute. reflexivity.
Defined.

(** X19: every entry of the derived mapping comes from a derived node
    with that id: its value is that node resolved with a [null] target
    path. *)
Theorem X19_derived_values_come_from_their_nodes (data : value)
  (derivedNodes : option (list value)) (ctx : context)
  (out : list (string * value)) :
  result (evaluateDerived data derivedNodes ctx) = Some out ->
  Forall (fun kv =>
            exists d, In d (default [] derivedNodes)
                      /\ Js.toString (Js.prop d "id") = fst kv
                      /\ result (Resolver.resolve ctx data TNull d) = Some (snd kv))
    out.
Proof.
  unfold evaluateDerived.
  set (ds := default [] derivedNodes).
  assert (G : forall l memo out',
             (forall d, In d l -> In d ds) ->
             Forall (fun kv => exists d, In d ds
                        /\ Js.toString (Js.prop d "id") = fst kv
                        /\ result (Resolver.resolve ctx data TNull d)
                           = Some (snd kv)) memo ->
             result (foldW (fun memo d =>
                              let* id := get_prop d "id" in
                              let* v := Resolver.resolve ctx data TNull d in
                              ret (Js.assign (Js.toString id) v memo)) l memo)
             = Some out' ->
             Forall (fun kv => exists d, In d ds
                        /\ Js.toString (Js.prop d "id") = fst kv
                        /\ result (Resolver.resolve ctx data TNull d)
                           = Some (snd kv)) out').
  { induction l as [|d l IH]; intros memo out' Hsub Hm H; cbn [foldW] in H.
    - apply result_ret in H. now subst.
    - apply result_bind in H as (memo1 & H1 & H).
      apply (IH memo1 out'); [intros; apply Hsub; now right | | exact H].
      apply result_bind in H1 as (id & Hid & H1).
      apply result_bind in H1 as (v & Hv & H1).
      apply result_ret in H1. subst memo1.
      unfold get_prop in Hid. destruct (Js.is_nullish d); [discriminate Hid|].
      apply result_ret in Hid. subst id.
      clear -Hm Hv Hsub.
      induction Hm as [|[k y] r Hy Hr IHr]; cbn [Js.assign].
      + constructor; [|constructor]. exists d.
        split; [apply Hsub; now left | now split].
      + destruct (String.eqb k (Js.toString (Js.prop d "id"))) eqn:E.
        * apply String.eqb_eq in E. constructor; [|assumption].
          exists d. split; [apply Hsub; now left | now split].
        * constructor; assumption. }
  intros H. apply (G ds [] out); [auto | constructor | exact H].
Qed.

End SectionFacts.

Lemma X19_derived_values_come_from_their_nodes_witness :
  Forall (fun kv : string * value =>
            exists d, In d [VObj [("id", VStr "total"); ("fn", VStr "never")]]
                      /\ Js.toString (Js.prop d "id") = fst kv
                      /\ result (Resolver.resolve Validation.ctx Validation.data
                                   TNull d) = Some (snd kv))
    [("total", VBool false)].
Proof.
  apply (X19_derived_values_come_from_their_nodes Validation.data
           (Some [VObj [("id", VStr "total"); ("fn", VStr "never")]])
           Validation.ctx).
  vm_compute. reflexivity.
Defined.

Section EdgeFacts.

Import Engine.

Variable toposort : list (value * value) -> option (list value).

(** X20: [evaluateEdgeStates] returns one object per edge of the
    configuration, in the same order: the fields of the edge with a
    [status] field set, in place when the edge already has one, last
    otherwise. *)
Theorem X20_edge_states_are_the_edges_with_a_status (data : value)
  (cfg : config) (ctx : context) (sectionStates : list (string * section_state))
  (out : list value) :
  result (evaluateEdgeStates toposort data cfg ctx sectionStates) = Some out ->
  Forall2 (fun edge o =>
             exists s, o = VObj (Js.assign "status" s (Js.own_fields edge)))
    (edges cfg) out.
Proof.
  unfold evaluateEdgeStates. cbv zeta. intros H.
  apply result_bind in H as (order & _ & H).
  apply result_bind in H as (acc & _ & H).
  apply result_mapW in H.
  eapply Forall2_impl; [exact H|]. intros edge o Ho. cbn beta in Ho.
  unfold edge_state in Ho. destruct (fst acc) as [m|]; [|discriminate Ho].
  apply result_bind in Ho as (from & _ & Ho).
  apply result_ret in Ho. subst o. eexists. reflexivity.
Qed.

End EdgeFacts.

Lemma X20_edge_states_are_the_edges_with_a_status_witness :
  Forall2 (fun edge o =>
             exists s, o = VObj (Js.assign "status" s (Js.own_fields edge)))
    (Engine.edges Decision.cfg)
    [Chain.with_status (Decision.edge "D" "X" true) "active";
     Chain.with_status (Decision.edge "D" "Y" false) "inactive"].
Proof.
  apply (X20_edge_states_are_the_edges_with_a_status
           (fun _ => Some (map VStr ["END"; "START"; "X"; "Y"; "D"]))
           (VObj []) Decision.cfg Examples.no_functions Decision.sectionStates).
  vm_compute. reflexivity.
Defined.

Section UnknownNode.

Import Engine.

Variable cfg : config.
Variable data : value.
Variable ctx : context.
Variable sectionStates : list (string * section_state).

Lemma nodeStatuses_undefined (post : list value) (frontierFound : bool) :
  post <> [] ->
  result (foldW (node_status cfg data ctx sectionStates) post
            (None, frontierFound)) = None.
Proof.
  destruct post as [|n post]; [congruence|]. intros _. reflexivity.
Qed.

End UnknownNode.

(** X21: when the evaluation order reaches, before any frontier, a node
    that is not terminal and whose configuration is neither an
    [input_section] nor a [decision] (or is missing), the evaluation of
    the edge states throws as soon as the configuration has an edge. *)
Theorem X21_unknown_node_type_throws (cfg : Engine.config) (data : value)
  (ctx : context) (sectionStates : list (string * Engine.section_state))
  (pre post : list value) (n : value) (log : list string)
  (m : list (string * value)) :
  Engine.nodeStatuses cfg data ctx sectionStates pre
  = (log, Some (Some m, false)) ->
  Engine.isTerminalNodePath n = false ->
  Engine.is_str
    (Js.prop (Engine.getConfigNodeByPath cfg ("$." +:+ Js.toString n)) "type")
    "input_section" = false ->
  Engine.is_str
    (Js.prop (Engine.getConfigNodeByPath cfg ("$." +:+ Js.toString n)) "type")
    "decision" = false ->
  Engine.edges cfg <> [] ->
  result (let* acc := Engine.nodeStatuses cfg data ctx sectionStates
                        (pre ++ n :: post) in
          mapW (Engine.edge_state cfg (fst acc)) (Engine.edges cfg)) = None.
Proof.
  intros Hpre Ht Hs Hd He. unfold Engine.nodeStatuses in *.
  rewrite foldW_app, Hpre, bind_logged. cbn [foldW].
  assert (Hn : Engine.node_status cfg data ctx sectionStates (Some m, false) n
               = throw
               \/ Engine.node_status cfg data ctx sectionStates (Some m, false) n
                  = ret (None, false)).
  { unfold Engine.node_status. rewrite Ht. unfold get_prop.
    destruct (Js.is_nullish _); [now left|].
    rewrite bind_ret_l, Hs, Hd. now right. }
  destruct Hn as [Hn|Hn]; rewrite Hn; [reflexivity|].
  rewrite bind_ret_l.
  destruct post as [|x post].
  - cbn [foldW ret fst snd]. rewrite bind_logged. cbn [fst snd].
    destruct (Engine.edges cfg) as [|e es]; [congruence | reflexivity].
  - pose proof (nodeStatuses_undefined cfg data ctx sectionStates
                  (x :: post) false) as Hu.
    unfold result, bind in *.
    destruct (foldW (Engine.node_status cfg data ctx sectionStates)
                (x :: post) (None, false)) as [l [r|]];
      [now discriminate Hu | reflexivity].
Qed.

Lemma X21_unknown_node_type_throws_witness :
  result (let* acc := Engine.nodeStatuses Decision.cfg (VObj [])
                        Examples.no_functions Decision.sectionStates
                        ([VStr "START"] ++ VStr "Z" :: [VStr "END"]) in
          mapW (Engine.edge_state Decision.cfg (fst acc))
            (Engine.edges Decision.cfg)) = None.
Proof.
  apply (X21_unknown_node_type_throws Decision.cfg (VObj [])
           Examples.no_functions Decision.sectionStates [VStr "START"]
           [VStr "END"] (VStr "Z") [] [("START", VStr "active")]);
    (reflexivity || discriminate).
Defined.

(** X22: every dependency [orderPreconditions] hands to [toposort] pairs
    the [path] of a configuration value that has preconditions with a
    ref-path string found inside those preconditions. *)
Theorem X22_dependencies_point_to_ref_paths (nodes : list value)
  (a b : value) :
  In (a, b) (Engine.precondition_deps nodes) ->
  Engine.isRefString b = true
  /\ exists node,
       In node (map Traverse.v_node (Traverse.forEach (VArr nodes)))
       /\ Js.truthy (Js.prop node "preconditions") = true
       /\ a = Js.prop node "path"
       /\ In b (map Traverse.v_node
                  (Traverse.forEach (Js.prop node "preconditions"))).
Proof.
  unfold Engine.precondition_deps. intros H.
  apply in_flat_map in H as (node & Hnode & H).
  destruct (Js.truthy node && Js.truthy (Js.prop node "preconditions")) eqn:E;
    [|destruct H].
  apply andb_true_iff in E as [_ Ep].
  apply in_map_iff in H as (x & [= <- <-] & Hx).
  apply list_elem_of_In, list_elem_of_filter in Hx as [Hr Hx].
  apply list_elem_of_In in Hx.
  split; [exact Hr|]. exists node. repeat split; assumption.
Qed.

Lemma X22_dependencies_point_to_ref_paths_witness :
  Engine.isRefString (VStr "$.flag") = true.
Proof.
  apply (X22_dependencies_point_to_ref_paths
           [Cascade.node_flag; Cascade.node_a; Cascade.node_b]
           (VStr "$.a") (VStr "$.flag")).
  vm_compute. tauto.
Defined.

(** ** Collecting the elements of an array *)

Section WildcardCollection.

Import JsString Traverse PathUtils PathNotions TreeNotions WalkNotions.

Lemma walk_array (pre : path) (items : list value) :
  walk pre (VArr items)
  = Visit pre (VArr items) (is_leaf (VArr items)) :: array_children pre O items.
Proof.
  cbn [walk]. f_equal. generalize O.
  induction items as [|x r IH]; intros i; [reflexivity|].
  cbn [array_children]. now rewrite <- IH.
Qed.

Lemma walk_object (pre : path) (fields : list (string * value)) :
  walk pre (VObj fields)
  = Visit pre (VObj fields) (is_leaf (VObj fields)) :: object_children pre fields.
Proof.
  cbn [walk]. f_equal.
  induction fields as [|[k x] r IH]; [reflexivity|].
  cbn [object_children]. now rewrite <- IH.
Qed.

Lemma has_digit_of_nat (i : nat) : has_digit (of_nat i) = true.
Proof.
  unfold of_nat, NilZero.string_of_uint.
  destruct (Nat.to_uint i); reflexivity.
Qed.

(** The walk starts at the node itself and then goes strictly below. *)
Lemma walk_below (v : value) :
  forall pre : path,
    exists tail,
      walk pre v = Visit pre v (is_leaf v) :: tail
      /\ forall visit0, In visit0 tail ->
                        exists tok rest, v_path visit0 = pre ++ tok :: rest.
Proof.
  induction v as [| |b|n|s|items IH|fields IH] using value_induction;
    intros pre;
    try (exists []; split; [reflexivity | intros ? []]).
  - rewrite walk_array. eexists. split; [reflexivity|].
    generalize O. induction IH as [|x r Hx _ IHr]; intros i visit0 Hin;
      [destruct Hin|].
    cbn [array_children] in Hin. apply in_app_or in Hin as [Hin|Hin].
    + destruct (Hx (pre ++ [of_nat i])) as (tail & E & Ht).
      rewrite E in Hin. destruct Hin as [<-|Hin].
      * exists (of_nat i), []. reflexivity.
      * destruct (Ht _ Hin) as (tok & rest & ->).
        exists (of_nat i), (tok :: rest). now rewrite <- app_assoc.
    + exact (IHr (S i) visit0 Hin).
  - rewrite walk_object. eexists. split; [reflexivity|].
    induction IH as [|[k x] r Hx _ IHr]; intros visit0 Hin; [destruct Hin|].
    cbn [object_children] in Hin. apply in_app_or in Hin as [Hin|Hin].
    + cbn [snd] in Hx. destruct (Hx (pre ++ [k])) as (tail & E & Ht).
      rewrite E in Hin. destruct Hin as [<-|Hin].
      * exists k, []. reflexivity.
      * destruct (Ht _ Hin) as (tok & rest & ->).
        exists k, (tok :: rest). now rewrite <- app_assoc.
    + exact (IHr visit0 Hin).
Qed.

Lemma filter_none {A : Type} (P : A -> Prop) `{!forall x, Decision (P x)}
  (l : list A) :
  (forall x, In x l -> ~ P x) -> filter P l = [].
Proof.
  induction l as [|x l IH]; intros Hall; [reflexivity|].
  rewrite filter_cons_False by (apply Hall; now left).
  apply IH. intros y Hy. apply Hall. now right.
Qed.

Variable k : string.
Hypothesis k_not_star : String.eqb k "*" = false.

Lemma item_walk_matches (tok : string) (x : value) :
  has_digit tok = true ->
  filter (fun dp => matches [k; "*"] dp = true) (map v_path (walk [k; tok] x))
  = [[k; tok]].
Proof.
  intros Hd. destruct (walk_below x [k; tok]) as (tail & E & Ht).
  rewrite E. cbn [map v_path]. rewrite filter_cons_True.
  - f_equal. apply filter_none. intros p Hp.
    apply in_map_iff in Hp as (visit0 & <- & Hin).
    destruct (Ht _ Hin) as (t' & rest & ->).
    rewrite matches_all_match. cbn. discriminate.
  - rewrite matches_all_match. cbn [length Nat.eqb all_match andb].
    unfold token_matches. rewrite String.eqb_refl, Hd. cbn.
    now rewrite orb_true_r.
Qed.

Lemma array_children_match (items : list value) :
  forall i : nat,
    filter (fun dp => matches [k; "*"] dp = true)
      (map v_path (array_children [k] i items))
    = map (fun j => [k; of_nat j]) (seq i (length items)).
Proof.
  induction items as [|x r IH]; intros i; [reflexivity|].
  cbn [array_children length seq map]. rewrite map_app, filter_app.
  cbn [app]. rewrite (item_walk_matches (of_nat i) x (has_digit_of_nat i)).
  now rewrite IH.
Qed.

Lemma other_key_no_match (k' : string) (x : value) :
  String.eqb k' k = false ->
  filter (fun dp => matches [k; "*"] dp = true) (map v_path (walk [k'] x)) = [].
Proof.
  intros Hk. apply filter_none. intros p Hp.
  apply in_map_iff in Hp as (visit0 & <- & Hin).
  destruct (walk_below x [k']) as (tail & E & Ht). rewrite E in Hin.
  rewrite matches_all_match.
  destruct Hin as [<-|Hin]; [cbn; discriminate|].
  destruct (Ht _ Hin) as (tok & rest & ->).
  cbn [app all_match]. unfold token_matches at 1.
  rewrite Hk, k_not_star. cbn. rewrite andb_false_r. discriminate.
Qed.

Lemma object_children_match (fields : list (string * value))
  (items : list value) :
  no_dup (map fst fields) = true ->
  Js.assoc k fields = Some (VArr items) ->
  filter (fun dp => matches [k; "*"] dp = true)
    (map v_path (object_children [] fields))
  = map (fun j => [k; of_nat j]) (seq O (length items)).
Proof.
  induction fields as [|[k' x] r IH]; intros Hd Ha; [discriminate Ha|].
  cbn [map fst no_dup] in Hd. apply andb_true_iff in Hd as [Hk Hd].
  cbn [object_children Js.assoc] in *. rewrite map_app, filter_app.
  cbn [app]. destruct (String.eqb k' k) eqn:E.
  - apply String.eqb_eq in E. subst k'. injection Ha as ->.
    rewrite walk_array. cbn [map v_path].
    rewrite filter_cons_False
      by (rewrite matches_all_match; cbn; discriminate).
    rewrite array_children_match.
    rewrite (filter_none _ (map v_path (object_children [] r)));
      [apply app_nil_r|].
    intros p Hp. apply in_map_iff in Hp as (visit0 & <- & Hin).
    apply negb_true_iff in Hk.
    clear -Hin Hk k_not_star. induction r as [|[k2 y] r IHr]; [destruct Hin|].
    cbn [map fst existsb] in Hk. apply orb_false_iff in Hk as [Hk2 Hk].
    cbn [object_children] in Hin. apply in_app_or in Hin as [Hin|Hin];
      [|now apply IHr].
    assert (Hne : String.eqb k2 k = false).
    { rewrite String.eqb_sym. exact Hk2. }
    pose proof (other_key_no_match k2 y Hne) as Hf.
    intros Hm.
    assert (Hel : v_path visit0 ∈ filter (fun dp => matches [k; "*"] dp = true)
                                   (map v_path (walk [k2] y))).
    { apply list_elem_of_filter. split; [exact Hm|].
      apply list_elem_of_In, in_map, Hin. }
    rewrite Hf in Hel. inversion Hel.
  - rewrite (other_key_no_match k' x E). cbn [app]. now apply IH.
Qed.

Lemma collect_items (fields : list (string * value)) (items : list value) :
  Js.assoc k fields = Some (VArr items) ->
  map (Lodash.get (VObj fields)) (map (fun j => [k; of_nat j]) (seq O (length items)))
  = items.
Proof.
  intros Ha. rewrite map_map. apply list_eq. intros i.
  change (map ?f ?l) with (f <$> l). rewrite list_lookup_fmap.
  destruct (items !! i) as [x|] eqn:E.
  - rewrite lookup_seq_lt by now apply lookup_lt_Some in E.
    cbn [fmap option_fmap option_map Nat.add].
    unfold Lodash.get. cbn [Lodash.baseGet Js.is_nullish Js.prop].
    rewrite Ha. cbn -[to_index of_nat].
    now rewrite to_index_of_nat, E.
  - rewrite lookup_seq_ge by now apply lookup_ge_None in E. reflexivity.
Qed.

End WildcardCollection.

(** X23: for an object whose keys are distinct and whose key [k] (with
    no dot, and other than [*]) holds an array, the ref-path [$.k.*]
    matches the paths [k.0], [k.1], ... in order and nothing else, and
    collecting its values gives the elements of the array, in order. *)
Theorem X23_wildcard_collects_the_array (fields : list (string * value))
  (k : string) (items : list value) :
  TreeNotions.no_dup (map fst fields) = true ->
  Js.assoc k fields = Some (VArr items) ->
  JsString.contains_char "." k = false ->
  String.eqb k "*" = false ->
  PathUtils.getDataPathsForRefPath ("$." +:+ k +:+ ".*") (VObj fields)
  = map (fun j => [k; JsString.of_nat j]) (seq O (length items))
  /\ Resolver.collectArrayValues ("$." +:+ k +:+ ".*") (VObj fields)
     = VArr items.
Proof.
  intros Hd Ha Hdot Hstar.
  change ("$." +:+ k +:+ ".*") with ("$" +:+ String "." (k +:+ ".*")).
  assert (Hp : PathUtils.getDataPathsForRefPath
                 ("$" +:+ String "." (k +:+ ".*")) (VObj fields)
               = map (fun j => [k; JsString.of_nat j]) (seq O (length items))).
  { unfold PathUtils.getDataPathsForRefPath, PathUtils.refPathArr.
    rewrite remove_first_prefix.
    change (k +:+ ".*") with (k +:+ String "." "*").
    rewrite (split_app_dot k "*" Hdot).
    change (JsString.split "." "*") with ["*"].
    unfold Traverse.paths, Traverse.forEach. rewrite walk_object.
    cbn [map Traverse.v_path].
    rewrite filter_cons_False
      by (rewrite matches_all_match; cbn; discriminate).
    now apply object_children_match. }
  split; [exact Hp|].
  unfold Resolver.collectArrayValues. rewrite Hp.
  now rewrite (collect_items k fields items Ha).
Qed.

Lemma X23_wildcard_collects_the_array_witness :
  Resolver.collectArrayValues "$.a.*" Examples.one_group
  = VArr [VObj [("b", VNum 1)]].
Proof.
  apply (X23_wildcard_collects_the_array
           [("a", VArr [VObj [("b", VNum 1)]])] "a" [VObj [("b", VNum 1)]]);
    reflexivity.
Defined.

(** ** Reading by reference path *)

Section ReferenceReads.

Import JsString PathUtils.

Lemma matched_visit_below_root (p : string) (v : Traverse.visit) :
  matches (refPathArr p) (Traverse.v_path v) = true -> Traverse.v_path v <> [].
Proof.
  intros Hm Hnil. rewrite Hnil in Hm. unfold matches in Hm.
  apply andb_true_iff in Hm as [Hl _]. apply Nat.eqb_eq in Hl.
  pose proof (split_nonempty "." (remove_first "$." p)) as Hne.
  unfold refPathArr in Hl. destruct (split "." _); [congruence | discriminate].
Qed.

Lemma collect_visits (p : string) (data : value) (l : list Traverse.visit) :
  TreeNotions.keys_unique data = true ->
  (forall v, In v l -> In v (Traverse.forEach data)) ->
  map (Lodash.get data)
    (filter (fun dp => matches (refPathArr p) dp = true) (map Traverse.v_path l))
  = map Traverse.v_node
      (filter (fun v => matches (refPathArr p) (Traverse.v_path v) = true) l).
Proof.
  intros Hu. induction l as [|v l IH]; intros Hin; [reflexivity|].
  cbn [map]. rewrite !filter_cons.
  destruct (decide (matches (refPathArr p) (Traverse.v_path v) = true)) as [Hm|Hm].
  - cbn [map]. f_equal.
    + apply get_reads_the_visited_node;
        [exact Hu | apply Hin; now left | exact (matched_visit_below_root p v Hm)].
    + apply IH. intros w Hw. apply Hin. now right.
  - apply IH. intros w Hw. apply Hin. now right.
Qed.



(** X10: in data whose objects have each key once, the array
    [collectArrayValues] returns holds the nodes of the visits whose path
    matches the pattern, in the order of the traversal. *)
Theorem X10_collected_values_are_the_matched_nodes (p : string) (data : value) :
  TreeNotions.keys_unique data = true ->
  Resolver.collectArrayValues p data
  = VArr (map Traverse.v_node
            (filter (fun v => matches (refPathArr p) (Traverse.v_path v) = true)
               (Traverse.forEach data))).
Proof.
  intros Hu. unfold Resolver.collectArrayValues, getDataPathsForRefPath,
    Traverse.paths.
  f_equal. apply collect_visits; [exact Hu | tauto].
Qed.

Lemma X10_collected_values_are_the_matched_nodes_witness :
  Resolver.collectArrayValues "$.a.*.b" Examples.one_group = VArr [VNum 1].
Proof.
  apply (X10_collected_values_are_the_matched_nodes "$.a.*.b" Examples.one_group).
  reflexivity.
Defined.

End ReferenceReads.

(** ** The message of a required rule *)

Section RequiredMessage.

Import Engine.

Lemma required_reduce_settled (requiredNode : value) (results : list value) :
  forall (index : nat) (memo : value),
    Js.truthy memo = true ->
    required_reduce requiredNode index results memo = ret memo.
Proof.
  induction results as [|r rest IH]; intros index memo Hm; [reflexivity|].
  cbn [required_reduce]. rewrite Hm, andb_false_r. now apply IH.
Qed.

Lemma required_reduce_skips (requiredNode : value) (pre rest : list value) :
  forall (index : nat) (memo : value),
    Forall (fun x => Js.truthy x = false) pre ->
    required_reduce requiredNode index (pre ++ rest) memo
    = required_reduce requiredNode (index + length pre) rest memo.
Proof.
  induction pre as [|x pre IH]; intros index memo Hp; cbn [app length].
  - now rewrite Nat.add_0_r.
  - inversion Hp as [|? ? Hx Hr]; subst. cbn [required_reduce].
    rewrite Hx. cbn [andb]. rewrite IH by exact Hr.
    now rewrite Nat.add_succ_comm.
Qed.

(** X24: when a required node is an array of rules, the message is that
    of the first rule that resolved to a truthy value, provided that
    message is truthy: the rules after it are not consulted.  When no rule
    resolved to a truthy value the message is [false]. *)
Theorem X24_required_message_of_the_first_rule_that_applies
  (requiredNode : value) (pre post : list value) (r m : value) :
  Forall (fun x => Js.truthy x = false) pre ->
  (Js.truthy r = true ->
   get_prop (Js.prop requiredNode (JsString.of_nat (length pre))) "message"
   = ret m ->
   Js.truthy m = true ->
   required_reduce requiredNode O (pre ++ r :: post) (VBool false) = ret m)
  /\ required_reduce requiredNode O pre (VBool false) = ret (VBool false).
Proof.
  intros Hp. split.
  - intros Hr Hg Hm. rewrite required_reduce_skips by exact Hp.
    cbn [required_reduce Nat.add]. rewrite Hr. cbn [Js.truthy negb andb].
    rewrite Hg, bind_ret_l. now apply required_reduce_settled.
  - rewrite <- (app_nil_r pre), required_reduce_skips by exact Hp.
    reflexivity.
Qed.

Lemma X24_required_message_of_the_first_rule_that_applies_witness :
  required_reduce
    (VArr [VObj [("message", VStr "first")]; VObj [("message", VStr "second")]])
    O [VBool false; VBool true] (VBool false)
  = ret (VStr "second").
Proof.
  apply (proj1 (X24_required_message_of_the_first_rule_that_applies
                  (VArr [VObj [("message", VStr "first")];
                         VObj [("message", VStr "second")]])
                  [VBool false] [] (VBool true) (VStr "second")
                  ltac:(repeat constructor))).
  - reflexivity.
  - reflexivity.
  - reflexivity.
Defined.

End RequiredMessage.
